(** * Image Archive, conceptual network: the graph logic of [script.js]

    A shallow embedding of the tag-connectivity, filtering, ordering,
    hover-highlight and resize code of [src/script.js], and the properties
    of the specification checked against it.

    JavaScript values are modelled as follows.
    - strings are [string]; a string is falsy exactly when it is empty;
    - the numbers of the configuration and of the page, which the source
      only copies, compares and scales, are rationals [Q]; the scroll
      offset and the parallax drift, which the source computes by a
      multiplication, are binary64 floats;
    - an array of items is a location in a store; two variables may hold
      the same location, as in the source;
    - item objects and link objects are records (their layout fields
      [x], [y], [fx], [fy], written by D3, are left out);
    - the D3 simulation and the SVG tree are records holding exactly what
      the source reads or writes of them. *)

From Stdlib Require Import Floats.PrimFloat.
From Stdlib Require Import QArith Qminmax.
From stdpp Require Import base option list sorting gmap strings.

Local Open Scope string_scope.
Local Open Scope list_scope.

(** ** JavaScript primitives used by the source *)

Module Js.

(** [!s] for a string [s] is [true] exactly for the empty string. *)
Definition truthy (s : string) : bool :=
  match s with
  | EmptyString => false
  | String _ _ => true
  end.

(** [a || b] on strings. *)
Definition or_else (a b : string) : string := if truthy a then a else b.

(** [xs.includes(x)] on an array of strings. *)
Definition includes (xs : list string) (x : string) : bool :=
  existsb (String.eqb x) xs.

(** [xs.some(p)]. *)
Definition some {A} (p : A → bool) (xs : list A) : bool := existsb p xs.

(** [xs.join(sep)] on an array of strings. *)
Fixpoint join (sep : string) (xs : list string) : string :=
  match xs with
  | [] => ""
  | [x] => x
  | x :: rest => x +:+ sep +:+ join sep rest
  end.

(** [Array.prototype.sort(cmp)]: ECMAScript requires the sort to be
    stable and, for a consistent comparator, to leave the array in
    ascending order of [cmp]; those two facts fix the result, so any
    stable sort is a model.  This one inserts from the right: [x]
    passes every [y] with [cmp x y > 0] and stops in front of the first
    [y] with [cmp x y <= 0]. *)
Fixpoint sort_insert {A} (cmp : A → A → Z) (x : A) (l : list A) : list A :=
  match l with
  | [] => [x]
  | y :: l' => if (0 <? cmp x y)%Z then y :: sort_insert cmp x l' else x :: l
  end.

Definition sort {A} (cmp : A → A → Z) (l : list A) : list A :=
  foldr (sort_insert cmp) [] l.

End Js.

(** ** The platform collation

    [String.prototype.localeCompare] is supplied by the host.  The source
    uses it only as the comparator of [sort], so it is taken as an interface
    with the laws ECMAScript calls a consistent comparator: the sign flips
    when the arguments are exchanged, and "not after" is transitive. *)

Class Collation := {
  localeCompare : string → string → Z;
  localeCompare_antisym a b :
    Z.sgn (localeCompare b a) = (- Z.sgn (localeCompare a b))%Z;
  localeCompare_trans a b c :
    (localeCompare a b ≤ 0)%Z → (localeCompare b c ≤ 0)%Z → (localeCompare a c ≤ 0)%Z
}.

(** Code-unit order, the collation of the ["C"] locale: an instance of the
    interface that computes, with the proofs of its two laws. *)
Module CodeUnit.

Definition sign (c : comparison) : Z :=
  match c with Lt => (-1)%Z | Eq => 0%Z | Gt => 1%Z end.

Definition compare (a b : string) : Z := sign (String.compare a b).

Lemma ascii_compare_lt_trans a b c :
  Ascii.compare a b = Lt → Ascii.compare b c = Lt → Ascii.compare a c = Lt.
Proof.
  unfold Ascii.compare. rewrite !N.compare_lt_iff. apply N.lt_trans.
Qed.

Lemma compare_lt_trans a : ∀ b c,
  String.compare a b = Lt → String.compare b c = Lt → String.compare a c = Lt.
Proof.
  induction a as [|x a IH]; intros [|y b] [|z c]; simpl; try done.
  destruct (Ascii.compare x y) eqn:Hxy; try done.
  - apply Ascii.compare_eq_iff in Hxy. subst y.
    destruct (Ascii.compare x z) eqn:Hxz; try done. apply IH.
  - destruct (Ascii.compare y z) eqn:Hyz; try done.
    + apply Ascii.compare_eq_iff in Hyz. subst z. by rewrite Hxy.
    + by rewrite (ascii_compare_lt_trans _ _ _ Hxy Hyz).
Qed.

Lemma compare_le_trans a b c :
  (compare a b ≤ 0 → compare b c ≤ 0 → compare a c ≤ 0)%Z.
Proof.
  unfold compare.
  destruct (String.compare a b) eqn:Hab; simpl; try lia; intros _;
    destruct (String.compare b c) eqn:Hbc; simpl; try lia; intros _.
  - apply String.compare_eq_iff in Hab, Hbc. subst.
    destruct (String.compare c c) eqn:Hcc; simpl; try lia.
    pose proof (String.compare_antisym c c) as H. rewrite Hcc in H. done.
  - apply String.compare_eq_iff in Hab. subst. rewrite Hbc. simpl. lia.
  - apply String.compare_eq_iff in Hbc. subst. rewrite Hab. simpl. lia.
  - rewrite (compare_lt_trans _ _ _ Hab Hbc). simpl. lia.
Qed.

Lemma compare_antisym a b : Z.sgn (compare b a) = (- Z.sgn (compare a b))%Z.
Proof.
  unfold compare. rewrite (String.compare_antisym a b).
  by destruct (String.compare b a).
Qed.

Definition collation : Collation :=
  {| localeCompare := compare;
     localeCompare_antisym := compare_antisym;
     localeCompare_trans := compare_le_trans |}.

End CodeUnit.

(** ** Data model *)

(** A node object after [loadData]: the fields of the data entry, with
    [name], [themes] and [moods] normalised. *)
Record Item := mkItem {
  id : string;
  image : string;
  source_url : option string;
  name : string;
  themes : list string;
  moods : list string
}.

(** An end of a link object.  [buildLinks] writes ids; D3's link force
    replaces each id by the node object it names. *)
Inductive Endpoint :=
| EId (i : string)
| ENode (n : Item).

Record Link := mkLink { source : Endpoint; target : Endpoint }.

(** [typeof e === "object" ? e.id : e], as [setHover] reads an end. *)
Definition endpoint_id (e : Endpoint) : string :=
  match e with
  | EId i => i
  | ENode n => id n
  end.

Definition sid (l : Link) : string := endpoint_id (source l).
Definition tid (l : Link) : string := endpoint_id (target l).

#[global] Instance Item_eq_dec : EqDecision Item.
Proof. solve_decision. Defined.
#[global] Instance Endpoint_eq_dec : EqDecision Endpoint.
Proof. solve_decision. Defined.
#[global] Instance Link_eq_dec : EqDecision Link.
Proof. solve_decision. Defined.

(** ** Links from shared themes or moods (script.js, lines 37-53) *)

Definition nodesShareConnection (a b : Item) : bool :=
  let sharedTheme := Js.some (λ t, Js.includes (themes b) t) (themes a) in
  let sharedMood := Js.some (λ m, Js.includes (moods b) m) (moods a) in
  sharedTheme || sharedMood.

(** The two counted loops, [i] from [0] and [j] from [i + 1], pushing onto
    [links].  An index outside the array never occurs under these bounds;
    the model leaves [links] as it is there. *)
Definition buildLinks (nodes : list Item) : list Link :=
  foldl (λ links i,
    foldl (λ links j,
      match nodes !! i, nodes !! j with
      | Some ni, Some nj =>
          if nodesShareConnection ni nj
          then links ++ [ {| source := EId (id ni); target := EId (id nj) |} ]
          else links
      | _, _ => links
      end) links (seq (S i) (length nodes - S i)))
    [] (seq 0 (length nodes)).

(** ** The store of item arrays

    [nodes], [fullNodes], [graphData.nodes] and the array given to D3 are
    references: [applyThemeFilter] may hand back its argument, and [sort]
    writes the array it is called on.  A location is an index into the
    store; reading or writing a location that was never allocated is an
    error. *)

Abbreviation loc := nat (only parsing).
Abbreviation Heap := (list (list Item)) (only parsing).

Definition M (A : Type) : Type := Heap → option (A * Heap).

#[global] Instance M_ret : MRet M := λ A a h, Some (a, h).
#[global] Instance M_bind : MBind M := λ A B k m h,
  match m h with
  | Some (a, h') => k a h'
  | None => None
  end.

Module Arr.

(** Reading the elements of the array at [r]. *)
Definition read (r : loc) : M (list Item) := λ h,
  match h !! r with
  | Some xs => Some (xs, h)
  | None => None
  end.

(** A new array: [[...xs]], or the result of [filter] or [map]. *)
Definition alloc (xs : list Item) : M loc := λ h,
  Some (length h, h ++ [xs]).

(** Overwriting the elements of the array at [r]. *)
Definition write (r : loc) (xs : list Item) : M () := λ h,
  match h !! r with
  | Some _ => Some ((), <[r := xs]> h)
  | None => None
  end.

(** [r.sort(cmp)]: sorts the array in place and returns it. *)
Definition sort (r : loc) (cmp : Item → Item → Z) : M loc :=
  xs ← read r;
  _ ← write r (Js.sort cmp xs);
  mret r.

End Arr.

(** ** Theme filter (script.js, lines 55-58) *)

Definition applyThemeFilter (nodes : loc) (theme : string) : M loc :=
  if negb (Js.truthy theme) then mret nodes
  else
    xs ← Arr.read nodes;
    Arr.alloc (filter (λ n, Js.includes (themes n) theme) xs).

(** ** Sort by tag (script.js, lines 61-73) *)

Section Ordering.
Context `{Collation}.

(** The comparator of line 64. *)
Definition compareByName (a b : Item) : Z :=
  localeCompare (Js.or_else (name a) (id a)) (Js.or_else (name b) (id b)).

(** The comparator of lines 66-72. *)
Definition compareByTag (tag : string) (a b : Item) : Z :=
  let aHas := Js.includes (themes a) tag in
  let bHas := Js.includes (themes b) tag in
  if aHas && negb bHas then (-1)%Z
  else if negb aHas && bHas then 1%Z
  else localeCompare (Js.or_else (name a) (id a)) (Js.or_else (name b) (id b)).

Definition sortNodesByTag (nodes : loc) (tag : string) : M loc :=
  xs ← Arr.read nodes;
  list ← Arr.alloc xs;
  if negb (Js.truthy tag) then Arr.sort list compareByName
  else Arr.sort list (compareByTag tag).

End Ordering.

(** ** Loading (script.js, lines 76-88) *)

(** The value of a [themes] or [moods] field of a data entry.  A value
    that is not an array is known by the two things the loader observes
    of it: whether it is truthy, and the text [join] prints for it. *)
Inductive RawTags :=
| TagsMissing
| TagsArray (ts : list string)
| TagsOther (isTruthy : bool) (text : string).

Record RawEntry := mkRaw {
  raw_id : string;
  raw_image : string;
  raw_source : option string;
  raw_name : option string;
  raw_themes : RawTags;
  raw_moods : RawTags
}.

(** What [[].concat] appends for the argument [t || []]: the elements of
    an array, a truthy non-array value as one element, nothing otherwise. *)
Definition concat_arg (t : RawTags) : list string :=
  match t with
  | TagsMissing => []
  | TagsArray ts => ts
  | TagsOther true text => [text]
  | TagsOther false _ => []
  end.

(** [Array.isArray(t) ? t : []]. *)
Definition tags_or_empty (t : RawTags) : list string :=
  match t with
  | TagsArray ts => ts
  | _ => []
  end.

(** The callback of [map] at lines 80-85. *)
Definition loadEntry (d : RawEntry) : Item :=
  {| id := raw_id d;
     image := raw_image d;
     source_url := raw_source d;
     name := Js.or_else (default "" (raw_name d))
               (Js.join ", " (concat_arg (raw_themes d) ++ concat_arg (raw_moods d)));
     themes := tags_or_empty (raw_themes d);
     moods := tags_or_empty (raw_moods d) |}.

(** [loadData] once the document is fetched and parsed; [raw_nodes] is
    [raw.nodes], absent when the document has no such field. *)
Definition loadData (raw_nodes : option (list RawEntry)) : M (loc * list Link) :=
  nodes ← Arr.alloc (loadEntry <$> default [] raw_nodes);
  xs ← Arr.read nodes;
  mret (nodes, buildLinks xs).

(** ** Configuration (script.js, lines 11-22) *)

Record Config := mkConfig {
  nodeRadius : Q;
  linkDistance : Q;
  chargeStrength : Q;
  centerStrength : Q;
  parallaxFactor : Q;
  hoverScale : Q;
  connectedScale : Q;
  unrelatedOpacity : Q;
  lineColor : string;
  lineColorHover : string
}.

Definition CONFIG : Config :=
  {| nodeRadius := 36%Q;
     linkDistance := 180%Q;
     chargeStrength := (-400)%Q;
     centerStrength := 0.05%Q;
     parallaxFactor := 0.12%Q;
     hoverScale := 1.4%Q;
     connectedScale := 1.1%Q;
     unrelatedOpacity := 0.3%Q;
     lineColor := "#3A86FF";
     lineColorHover := "#6ba3ff" |}.

(** ** The SVG tree and the D3 simulation *)

(** A [g.node] element: its datum, its two highlight classes, the inline
    opacity and the scale of the [transform] of its image.  A transition
    is modelled by the value it ends at; [None] is an attribute never
    set. *)
Record NodeEl := mkNodeEl {
  node_datum : Item;
  node_hovered : bool;
  node_connected : bool;
  node_opacity : option Q;
  image_scale : option Q
}.

(** A [line.link] element. *)
Record LinkEl := mkLinkEl {
  link_datum : Link;
  link_hovered : bool;
  link_dimmed : bool;
  link_stroke : string
}.

Record Svg := mkSvg {
  svg_width : Q;
  svg_height : Q;
  svg_viewBox : Q * Q * Q * Q;
  svg_links : list LinkEl;
  svg_nodes : list NodeEl
}.

(** [d3.forceCenter(x, y).strength(s)]. *)
Record CenterForce := mkCenter {
  center_x : Q;
  center_y : Q;
  center_strength : Q
}.

(** A [d3.forceSimulation]: its node array, the links of its link force
    (with resolved ends), the parameters of its forces, [alpha] (the
    temperature) and whether its timer runs. *)
Record Simulation := mkSim {
  sim_nodes : loc;
  sim_links : list Link;
  sim_link_distance : Q;
  sim_charge : Q;
  sim_center : CenterForce;
  sim_collide_radius : Q;
  sim_alpha : Q;
  sim_running : bool
}.

(** The variables of the closure, and the store. *)
Record World := mkWorld {
  heap : Heap;
  graphData_nodes : loc;
  graphData_links : list Link;
  fullNodes : loc;
  simulation : option Simulation;
  activeThemeFilter : string;
  hoveredNodeId : option string;
  svg : Svg
}.

(** [graphWrapper.getBoundingClientRect()], read from the page. *)
Record Rect := mkRect { rect_width : Q; rect_height : Q }.

(** Lines 91-97. *)
Definition getDimensions (rect : Rect) : Q * Q :=
  (if Qeq_bool (rect_width rect) 0%Q then 1200%Q else rect_width rect,
   Qmax (rect_height rect) 800%Q).

(** The link force of D3 keeps a map from id to node, filled in array
    order, so the last node with an id wins; each end of a link that is
    still an id is replaced by the node of that id, and an id with no node
    is an error ("node not found"). *)
Definition nodeById (nodes : list Item) : gmap string Item :=
  foldl (λ m d, <[id d := d]> m) ∅ nodes.

Definition resolveEnd (m : gmap string Item) (e : Endpoint) : option Endpoint :=
  match e with
  | ENode n => Some (ENode n)
  | EId i => ENode <$> m !! i
  end.

Definition resolveLinks (nodes : list Item) (links : list Link) : option (list Link) :=
  mapM (λ l,
    s ← resolveEnd (nodeById nodes) (source l);
    t ← resolveEnd (nodeById nodes) (target l);
    Some {| source := s; target := t |}) links.

(** Lines 100-209: the drawing surface is sized, the old container is
    replaced by new link and node elements, and a new simulation is
    started on [nodes] and [links]; as D3 documents, a new simulation is
    at temperature 1 and its timer runs.  The link elements carry the
    link objects that the link force resolves. *)
Definition initGraph (rect : Rect) (nodes : loc) (links : list Link) (w : World)
  : option World :=
  let '(width, height) := getDimensions rect in
  ns ← heap w !! nodes;
  resolved ← resolveLinks ns links;
  Some {| heap := heap w;
          graphData_nodes := graphData_nodes w;
          graphData_links := graphData_links w;
          fullNodes := fullNodes w;
          simulation := Some
            {| sim_nodes := nodes;
               sim_links := resolved;
               sim_link_distance := linkDistance CONFIG;
               sim_charge := chargeStrength CONFIG;
               sim_center := {| center_x := (width / 2)%Q;
                                center_y := (height / 2)%Q;
                                center_strength := centerStrength CONFIG |};
               sim_collide_radius := (nodeRadius CONFIG * 2.2)%Q;
               sim_alpha := 1%Q;
               sim_running := true |};
          activeThemeFilter := activeThemeFilter w;
          hoveredNodeId := hoveredNodeId w;
          svg := {| svg_width := width;
                    svg_height := height;
                    svg_viewBox := (0, 0, width, height)%Q;
                    svg_links :=
                      (λ l, {| link_datum := l;
                               link_hovered := false;
                               link_dimmed := false;
                               link_stroke := lineColor CONFIG |}) <$> resolved;
                    svg_nodes :=
                      (λ d, {| node_datum := d;
                               node_hovered := false;
                               node_connected := false;
                               node_opacity := None;
                               image_scale := None |}) <$> ns |} |}.

(** ** Hover (script.js, lines 211-264) *)

(** [if (nodeId)]: [null] and the empty string are falsy. *)
Definition hovering (nodeId : option string) : bool :=
  match nodeId with
  | Some n => Js.truthy n
  | None => false
  end.

(** [x === nodeId] for a string [x]. *)
Definition is_hovered_id (nodeId : option string) (x : string) : bool :=
  bool_decide (nodeId = Some x).

(** Lines 217-225. *)
Definition connectedIds (nodeId : option string) (links : list Link) : gset string :=
  if hovering nodeId then
    foldl (λ (acc : gset string) l,
      let acc := if is_hovered_id nodeId (sid l) then acc ∪ {[ tid l ]} else acc in
      if is_hovered_id nodeId (tid l) then acc ∪ {[ sid l ]} else acc)
      ∅ links
  else ∅.

(** The callback of lines 229-249. *)
Definition hoverNode (nodeId : option string) (connected : gset string)
    (el : NodeEl) : NodeEl :=
  let i := id (node_datum el) in
  if negb (hovering nodeId) then
    {| node_datum := node_datum el; node_hovered := false; node_connected := false;
       node_opacity := Some 1%Q; image_scale := Some 1%Q |}
  else if is_hovered_id nodeId i then
    {| node_datum := node_datum el; node_hovered := true; node_connected := false;
       node_opacity := Some 1%Q; image_scale := Some (hoverScale CONFIG) |}
  else if bool_decide (i ∈ connected) then
    {| node_datum := node_datum el; node_hovered := false; node_connected := true;
       node_opacity := Some 1%Q; image_scale := Some (connectedScale CONFIG) |}
  else
    {| node_datum := node_datum el; node_hovered := false; node_connected := false;
       node_opacity := Some (unrelatedOpacity CONFIG); image_scale := Some 1%Q |}.

(** The callback of lines 253-263. *)
Definition hoverLink (nodeId : option string) (el : LinkEl) : LinkEl :=
  let d := link_datum el in
  let isHovered :=
    hovering nodeId && (is_hovered_id nodeId (sid d) || is_hovered_id nodeId (tid d)) in
  let isDimmed :=
    hovering nodeId && negb (is_hovered_id nodeId (sid d))
                    && negb (is_hovered_id nodeId (tid d)) in
  {| link_datum := d;
     link_hovered := isHovered;
     link_dimmed := isDimmed;
     link_stroke := if isHovered then lineColorHover CONFIG else lineColor CONFIG |}.

Definition setHover (nodeId : option string) (w : World) : option World :=
  nodes ← heap w !! graphData_nodes w;
  let links := graphData_links w in
  let restyled :=
    if Nat.eqb (length nodes) 0 then svg w
    else
      let connected := connectedIds nodeId links in
      {| svg_width := svg_width (svg w);
         svg_height := svg_height (svg w);
         svg_viewBox := svg_viewBox (svg w);
         svg_links := hoverLink nodeId <$> svg_links (svg w);
         svg_nodes := hoverNode nodeId connected <$> svg_nodes (svg w) |} in
  Some {| heap := heap w;
          graphData_nodes := graphData_nodes w;
          graphData_links := graphData_links w;
          fullNodes := fullNodes w;
          simulation := simulation w;
          activeThemeFilter := activeThemeFilter w;
          hoveredNodeId := nodeId;
          svg := restyled |}.

(** ** Filter change, resize and start-up *)

(** [simulation.stop()]. *)
Definition stop (s : Simulation) : Simulation :=
  {| sim_nodes := sim_nodes s; sim_links := sim_links s;
     sim_link_distance := sim_link_distance s; sim_charge := sim_charge s;
     sim_center := sim_center s; sim_collide_radius := sim_collide_radius s;
     sim_alpha := sim_alpha s; sim_running := false |}.

Section Control.
Context `{Collation}.

(** Lines 267-276. *)
Definition rebuildForFilter (rect : Rect) (theme : string) (w : World)
  : option World :=
  '(filtered, h1) ← applyThemeFilter (fullNodes w) theme (heap w);
  '(filteredNodes, h2) ← sortNodesByTag filtered theme h1;
  ns ← h2 !! filteredNodes;
  let filteredLinks := buildLinks ns in
  w' ← initGraph rect filteredNodes filteredLinks
         {| heap := h2;
            graphData_nodes := graphData_nodes w;
            graphData_links := graphData_links w;
            fullNodes := fullNodes w;
            simulation := stop <$> simulation w;
            activeThemeFilter := theme;
            hoveredNodeId := hoveredNodeId w;
            svg := svg w |};
  Some {| heap := heap w';
          graphData_nodes := filteredNodes;
          graphData_links :=
            match simulation w' with
            | Some s => sim_links s
            | None => filteredLinks
            end;
          fullNodes := fullNodes w';
          simulation := simulation w';
          activeThemeFilter := activeThemeFilter w';
          hoveredNodeId := hoveredNodeId w';
          svg := svg w' |}.

(** Lines 316-323, after the document is parsed. *)
Definition init (rect : Rect) (raw_nodes : option (list RawEntry)) (w : World)
  : option World :=
  '((nodes, links), h1) ← loadData raw_nodes (heap w);
  '(sorted, h2) ← sortNodesByTag nodes "" h1;
  w' ← initGraph rect sorted links
         {| heap := h2;
            graphData_nodes := sorted;
            graphData_links := links;
            fullNodes := sorted;
            simulation := simulation w;
            activeThemeFilter := activeThemeFilter w;
            hoveredNodeId := hoveredNodeId w;
            svg := svg w |};
  s ← simulation w';
  Some {| heap := heap w';
          graphData_nodes := graphData_nodes w';
          graphData_links := sim_links s;
          fullNodes := fullNodes w';
          simulation := simulation w';
          activeThemeFilter := activeThemeFilter w';
          hoveredNodeId := hoveredNodeId w';
          svg := svg w' |}.

End Control.

(** Lines 304-311: [alpha(0.3)] sets the temperature, [restart()] starts
    the timer. *)
Definition onResize (rect : Rect) (w : World) : World :=
  let '(width, height) := getDimensions rect in
  {| heap := heap w;
     graphData_nodes := graphData_nodes w;
     graphData_links := graphData_links w;
     fullNodes := fullNodes w;
     simulation :=
       match simulation w with
       | Some s =>
           Some {| sim_nodes := sim_nodes s; sim_links := sim_links s;
                   sim_link_distance := sim_link_distance s;
                   sim_charge := sim_charge s;
                   sim_center := {| center_x := (width / 2)%Q;
                                    center_y := (height / 2)%Q;
                                    center_strength := centerStrength CONFIG |};
                   sim_collide_radius := sim_collide_radius s;
                   sim_alpha := 0.3%Q;
                   sim_running := true |}
       | None => None
       end;
     activeThemeFilter := activeThemeFilter w;
     hoveredNodeId := hoveredNodeId w;
     svg := {| svg_width := width;
               svg_height := height;
               svg_viewBox := (0, 0, width, height)%Q;
               svg_links := svg_links (svg w);
               svg_nodes := svg_nodes (svg w) |} |}.

(** The state when the script starts (lines 24-28): two empty arrays, no
    simulation, no filter, no hover, an empty drawing surface. *)
Definition boot : World :=
  {| heap := [ []; [] ];
     graphData_nodes := 0;
     graphData_links := [];
     fullNodes := 1;
     simulation := None;
     activeThemeFilter := "";
     hoveredNodeId := None;
     svg := {| svg_width := 0%Q; svg_height := 0%Q; svg_viewBox := (0, 0, 0, 0)%Q;
               svg_links := []; svg_nodes := [] |} |}.

(** ** Vocabulary of the statements *)

(** Two items share a theme or share a mood. *)
Definition sharesTag (a b : Item) : Prop :=
  (∃ t, t ∈ themes a ∧ t ∈ themes b) ∨ (∃ m, m ∈ moods a ∧ m ∈ moods b).

(** The link [buildLinks] pushes for the items [a] and [b]. *)
Definition linkOf (a b : Item) : Link :=
  {| source := EId (id a); target := EId (id b) |}.

(** Two links join the same unordered pair of ids. *)
Definition samePair (l1 l2 : Link) : Prop :=
  (sid l1 = sid l2 ∧ tid l1 = tid l2) ∨ (sid l1 = tid l2 ∧ tid l1 = sid l2).

(** The index pairs [(i, j)], [i < j < n], in the order the loops visit
    them. *)
Definition indexPairs (n : nat) : list (nat * nat) :=
  i ← seq 0 n; (λ j, (i, j)) <$> seq (S i) (n - S i).

(** The link pushed at the index pair [p], if any. *)
Definition linkAt (nodes : list Item) (p : nat * nat) : option Link :=
  ni ← nodes !! p.1;
  nj ← nodes !! p.2;
  if nodesShareConnection ni nj then Some (linkOf ni nj) else None.

(** The display name of an item, or its id when the display name is
    empty. *)
Definition sortKey (a : Item) : string :=
  if decide (name a = "") then id a else name a.

(** [a] is not after [b] under a comparator. *)
Definition notAfter {A} (cmp : A → A → Z) (a b : A) : Prop := (cmp a b ≤ 0)%Z.

(** Every earlier element is related to every later one. *)
Definition ascending {A} (R : A → A → Prop) (l : list A) : Prop :=
  ∀ i j a b, i < j → l !! i = Some a → l !! j = Some b → R a b.

(** The item [a] with its moods replaced by [f a]. *)
Definition withMoods (f : Item → list string) (a : Item) : Item :=
  {| id := id a; image := image a; source_url := source_url a; name := name a;
     themes := themes a; moods := f a |}.

(** The link and node elements [initGraph] creates. *)
Definition newLinkEl (l : Link) : LinkEl :=
  {| link_datum := l; link_hovered := false; link_dimmed := false;
     link_stroke := lineColor CONFIG |}.

Definition newNodeEl (d : Item) : NodeEl :=
  {| node_datum := d; node_hovered := false; node_connected := false;
     node_opacity := None; image_scale := None |}.

(** The simulation [initGraph] starts. *)
Definition newSimulation (rect : Rect) (nodes : loc) (links : list Link) : Simulation :=
  {| sim_nodes := nodes;
     sim_links := links;
     sim_link_distance := linkDistance CONFIG;
     sim_charge := chargeStrength CONFIG;
     sim_center := {| center_x := ((getDimensions rect).1 / 2)%Q;
                      center_y := ((getDimensions rect).2 / 2)%Q;
                      center_strength := centerStrength CONFIG |};
     sim_collide_radius := (nodeRadius CONFIG * 2.2)%Q;
     sim_alpha := 1%Q;
     sim_running := true |}.

(** The drawing surface [initGraph] leaves. *)
Definition newSvg (rect : Rect) (nodes : list Item) (links : list Link) : Svg :=
  {| svg_width := (getDimensions rect).1;
     svg_height := (getDimensions rect).2;
     svg_viewBox := (0%Q, 0%Q, (getDimensions rect).1, (getDimensions rect).2);
     svg_links := newLinkEl <$> links;
     svg_nodes := newNodeEl <$> nodes |}.

(** The items [applyThemeFilter] selects. *)
Definition selected (theme : string) (full : list Item) : list Item :=
  if Js.truthy theme then filter (λ n, Js.includes (themes n) theme) full else full.

(** The store after the filter step of [rebuildForFilter]. *)
Definition filteredHeap (theme : string) (h : list (list Item)) (full : list Item)
  : list (list Item) :=
  if Js.truthy theme then h ++ [selected theme full] else h.

(** The comparator [sortNodesByTag] hands to [sort] for a tag. *)
Definition tagComparator `{Collation} (tag : string) : Item → Item → Z :=
  if Js.truthy tag then compareByTag tag else compareByName.

(** The drawing shows the current graph: the node elements carry the
    current nodes, in order, and the link elements the current links.
    [init] and [rebuildForFilter] establish this and [setHover] and
    [onResize] keep it. *)
Definition rendered (w : World) (nodes : list Item) : Prop :=
  heap w !! graphData_nodes w = Some nodes
  ∧ node_datum <$> svg_nodes (svg w) = nodes
  ∧ link_datum <$> svg_links (svg w) = graphData_links w.

(** The link [l] joins the ids [n] and [x]. *)
Definition joins (l : Link) (n x : string) : Prop :=
  (sid l = n ∧ tid l = x) ∨ (tid l = n ∧ sid l = x).

(** The opacity and the image scale a node element ends at. *)
Definition styled (el : NodeEl) (opacity scale : Q) : Prop :=
  node_opacity el = Some opacity ∧ image_scale el = Some scale.

(** A node element without highlight: neither highlight class, and an
    inline opacity and an image scale that are 1 or were never set. *)
Definition idleNode (el : NodeEl) : Prop :=
  node_hovered el = false ∧ node_connected el = false
  ∧ (node_opacity el = None ∨ node_opacity el = Some 1%Q)
  ∧ (image_scale el = None ∨ image_scale el = Some 1%Q).

(** A link element without highlight: neither class, neutral stroke
    colour. *)
Definition idleLink (el : LinkEl) : Prop :=
  link_hovered el = false ∧ link_dimmed el = false
  ∧ link_stroke el = lineColor CONFIG.

(** The hovered id is the id of a current node, or no element is
    highlighted. *)
Definition hoverSettled (w : World) : Prop :=
  (∃ n nodes, hoveredNodeId w = Some n
              ∧ heap w !! graphData_nodes w = Some nodes ∧ n ∈ id <$> nodes)
  ∨ (Forall idleNode (svg_nodes (svg w)) ∧ Forall idleLink (svg_links (svg w))).

(** Every current link joins ids of current nodes. *)
Definition linksWithin (w : World) (nodes : list Item) : Prop :=
  Forall (λ l, sid l ∈ id <$> nodes ∧ tid l ∈ id <$> nodes) (graphData_links w).



(** ** Events

    What the page does after start-up: the pointer enters the node element
    at a position or leaves a node element (lines 204-206), a filter
    button is clicked (lines 278-287), the window is resized (line 313).
    [rect] is what the wrapper measures at that moment. *)
Inductive Event :=
| PointerEnter (k : nat)
| PointerLeave
| FilterClick (rect : Rect) (theme : string)
| Resize (rect : Rect).

Section Events.
Context `{Collation}.

Definition handle (e : Event) (w : World) : option World :=
match e with
| PointerEnter k =>
    el ← svg_nodes (svg w) !! k;
    setHover (Some (id (node_datum el))) w
| PointerLeave => setHover None w
| FilterClick rect theme => rebuildForFilter rect theme w
| Resize rect => Some (onResize rect w)
end.

(** The states the page can be in once the document is loaded. *)
Inductive reachable : World → Prop :=
| reachable_init rect raw_nodes w :
  init rect raw_nodes boot = Some w → reachable w
| reachable_step e w w' :
  reachable w → handle e w = Some w' → reachable w'.

End Events.

(** The invariant of the reachable states. *)
Definition shown (w : World) : Prop :=
  ∃ nodes full,
    rendered w nodes ∧ linksWithin w nodes ∧ heap w !! fullNodes w = Some full.

(** ** The scenario of the specification

    Four entries [A], [B], [C], [D] with themes [x], [x, y], [y], [z], no
    moods and no name; images and sources are left open. *)
Module Scenario.
Section Entries.
Variables (img : string → string) (src : string → option string).

Definition entry (i : string) (ts : list string) : RawEntry :=
  {| raw_id := i; raw_image := img i; raw_source := src i; raw_name := None;
     raw_themes := TagsArray ts; raw_moods := TagsArray [] |}.

Definition raws : list RawEntry :=
  [entry "A" ["x"]; entry "B" ["x"; "y"]; entry "C" ["y"]; entry "D" ["z"]].

Definition A : Item := loadEntry (entry "A" ["x"]).
Definition B : Item := loadEntry (entry "B" ["x"; "y"]).
Definition C : Item := loadEntry (entry "C" ["y"]).
Definition D : Item := loadEntry (entry "D" ["z"]).
End Entries.
End Scenario.

(** [ys] keeps the elements of [xs] that tie under [cmp] in their order:
    what ECMAScript calls a stable sort of [xs]. *)
Definition stableFor {A} (cmp : A → A → Z) (xs ys : list A) : Prop :=
  ∀ z, filter (λ y, cmp z y = 0%Z) ys = filter (λ y, cmp z y = 0%Z) xs.

(** ** Concrete data

    The scenario with concrete images, under the code-unit collation, on a
    page whose wrapper reports no width and a height of 600; and a few
    further entries. *)

Module Demo.

Definition img (i : string) : string := "Week1ImageAssets/" +:+ i +:+ ".jpg".
Definition src (i : string) : option string := None.
Definition rect : Rect := {| rect_width := 0%Q; rect_height := 600%Q |}.

Definition A : Item := Scenario.A img src.
Definition B : Item := Scenario.B img src.
Definition C : Item := Scenario.C img src.
Definition D : Item := Scenario.D img src.

(** The state after start-up. *)
Definition loaded : World :=
  default boot (@init CodeUnit.collation rect (Some (Scenario.raws img src)) boot).

(** An item with no name and no tags, and a named item. *)
Definition untagged : Item :=
  loadEntry {| raw_id := "z"; raw_image := img "z"; raw_source := None;
               raw_name := None; raw_themes := TagsArray []; raw_moods := TagsArray [] |}.
Definition named : Item :=
  loadEntry {| raw_id := "a"; raw_image := img "a"; raw_source := None;
               raw_name := Some "m"; raw_themes := TagsArray []; raw_moods := TagsArray [] |}.


(** A document in which one entry has the empty string as its id. *)
Definition raws_empty_id : list RawEntry :=
  [ {| raw_id := ""; raw_image := img "0"; raw_source := None; raw_name := None;
       raw_themes := TagsArray ["x"]; raw_moods := TagsArray [] |};
    Scenario.entry img src "B" ["x"; "y"] ].

(** Two items with the same id that share a theme. *)
Definition twin1 : Item := loadEntry (Scenario.entry img src "A" ["x"]).
Definition twin2 : Item := loadEntry (Scenario.entry img src "A" ["x"; "y"]).

End Demo.

(** ** Vocabulary of the further properties *)

(** The links [links] join the same pairs of ids as the links
    [buildLinks] makes for [nodes]. *)
Definition linksOfNodes (links : list Link) (nodes : list Item) : Prop :=
  ∀ n x, (∃ l, l ∈ links ∧ joins l n x) ↔ (∃ l, l ∈ buildLinks nodes ∧ joins l n x).

(** What every state after start-up satisfies: the drawing shows the
    current nodes and links; the full item array is in the order of the
    comparator without a tag; the current nodes are the items of the full
    array that pass the active filter, in the order of the full array;
    the current links are the links of the current nodes; and the
    simulation runs on the current nodes and links. *)
Definition consistent `{Collation} (w : World) : Prop :=
  ∃ nodes full s,
    rendered w nodes
    ∧ linksWithin w nodes
    ∧ heap w !! fullNodes w = Some full
    ∧ Sorted (notAfter compareByName) full
    ∧ nodes = selected (activeThemeFilter w) full
    ∧ linksOfNodes (graphData_links w) nodes
    ∧ simulation w = Some s
    ∧ sim_nodes s = graphData_nodes w
    ∧ sim_links s = graphData_links w.

(** ** The page around the graph: parallax, filter buttons, load failure

    The rest of the closure works on three more pieces of the page: the
    container [g.graph-container] of the drawing, which [initGraph]
    replaces and the scroll handler translates; the buttons [.filter-btn]
    of the filter bar, which is taken to exist; and the wrapper, which
    shows a message when loading fails. *)

(** A filter button: its [data-theme] attribute, absent for [null], and
    whether it carries the class [active]. *)
Record Button := mkButton {
  data_theme : option string;
  btn_active : bool
}.

(** [page_container] is [None] while the drawing has no container,
    [Some None] for a container without a [transform], and [Some (Some d)]
    for a container whose [transform] is ["translate(0," + d + ")"]. *)
Record Page := mkPage {
  page_world : World;
  page_container : option (option float);
  page_buttons : list Button;
  page_error : bool
}.

(** The number that string concatenation prints for a double: a negative
    zero prints as [0], every other double as itself. *)
Definition printed (d : float) : float :=
  if PrimFloat.eqb d 0%float then 0%float else d.

#[local] Set Warnings "-inexact-float".

(** The double a decimal literal denotes: the double nearest to its
    value.  Doubles hold the numerator and the denominator of the
    literals of [CONFIG] exactly, and the binary64 quotient of two
    doubles is the double nearest to their quotient. *)
Module Double.

Fixpoint of_pos (p : positive) : float :=
  match p with
  | xH => 1%float
  | xO p => PrimFloat.mul 2%float (of_pos p)
  | xI p => PrimFloat.add (PrimFloat.mul 2%float (of_pos p)) 1%float
  end.

Definition of_Z (z : Z) : float :=
  match z with
  | Z0 => 0%float
  | Zpos p => of_pos p
  | Zneg p => PrimFloat.opp (of_pos p)
  end.

Definition of_literal (q : Q) : float :=
  PrimFloat.div (of_Z (Qnum q)) (of_pos (Qden q)).

End Double.

(** Line 295: the binary64 product of the scroll offset and the
    parallax factor. *)
Definition drift (y : float) : float :=
  PrimFloat.mul y (Double.of_literal (parallaxFactor CONFIG)).

(** Lines 291-297, with [y] the value of
    [window.scrollY ?? window.pageYOffset]. *)
Definition onScroll (y : float) (p : Page) : Page :=
  match page_container p with
  | None => p
  | Some _ =>
      {| page_world := page_world p;
         page_container := Some (Some (printed (drift y)));
         page_buttons := page_buttons p;
         page_error := page_error p |}
  end.

(** [btn.getAttribute("data-theme") || ""]. *)
Definition buttonTheme (b : Button) : string :=
  match data_theme b with
  | Some t => Js.or_else t ""
  | None => ""
  end.

Section PageControl.
Context `{Collation}.

(** [rebuildForFilter] on the page: its call of [initGraph] removes the
  container and appends a new one, which has no [transform]. *)
Definition rebuildPage (rect : Rect) (theme : string) (p : Page) : option Page :=
w' ← rebuildForFilter rect theme (page_world p);
Some {| page_world := w';
        page_container := Some None;
        page_buttons := page_buttons p;
        page_error := page_error p |}.

(** The click handler that [bindFilters] gives the button at position
  [k] (lines 280-285). *)
Definition clickFilter (rect : Rect) (k : nat) (p : Page) : option Page :=
btn ← page_buttons p !! k;
let cleared :=
  (λ b, {| data_theme := data_theme b; btn_active := false |}) <$> page_buttons p in
let marked :=
  <[k := {| data_theme := data_theme btn; btn_active := true |}]> cleared in
rebuildPage rect (buttonTheme btn)
  {| page_world := page_world p;
     page_container := page_container p;
     page_buttons := marked;
     page_error := page_error p |}.



End PageControl.

(** A page for the concrete data: the loaded scenario, a container
    without translation, a button for all items and a button for the
    theme [y]. *)
Module DemoPage.

Definition buttons : list Button :=
  [ {| data_theme := None; btn_active := true |};
    {| data_theme := Some "y"; btn_active := false |} ].

Definition page : Page :=
  {| page_world := Demo.loaded; page_container := Some None;
     page_buttons := buttons; page_error := false |}.

End DemoPage.

(** Entries for the ordering: entries without a name or a tag, which are
    loaded with the empty name, and two named entries with the same
    name. *)
Module DemoKeys.

Definition bare (i : string) : RawEntry :=
  {| raw_id := i; raw_image := Demo.img i; raw_source := None; raw_name := None;
     raw_themes := TagsMissing; raw_moods := TagsArray [] |}.

Definition called (i n : string) : RawEntry :=
  {| raw_id := i; raw_image := Demo.img i; raw_source := None; raw_name := Some n;
     raw_themes := TagsArray []; raw_moods := TagsArray [] |}.

Definition raws : list RawEntry := [bare "q"; called "a" "m"; bare "b"].


End DemoKeys.

(** * Properties *)

(** ** Facts about the JavaScript primitives *)

Module JsFacts.
Import Js.

Lemma includes_spec xs x : includes xs x = true ↔ x ∈ xs.
Proof.
  unfold includes. rewrite existsb_exists. split.
  - intros (y & Hy & Heq). apply String.eqb_eq in Heq. subst y.
    by apply list_elem_of_In.
  - intros Hx. exists x. split; [by apply list_elem_of_In | apply String.eqb_refl].
Qed.

Lemma includes_false xs x : includes xs x = false ↔ x ∉ xs.
Proof.
  rewrite <- includes_spec. destruct (includes xs x); split; congruence.
Qed.

Lemma some_spec {A} (p : A → bool) xs :
  some p xs = true ↔ ∃ x, x ∈ xs ∧ p x = true.
Proof.
  unfold some. rewrite existsb_exists.
  split; intros (x & Hx & Hp); exists x; split; try done; by apply list_elem_of_In.
Qed.

Lemma truthy_spec s : truthy s = true ↔ s ≠ "".
Proof. destruct s; simpl; split; congruence. Qed.

Lemma or_else_empty b : or_else "" b = b.
Proof. reflexivity. Qed.

Lemma or_else_nonempty a b : a ≠ "" → or_else a b = a.
Proof. intros H. unfold or_else. by destruct a. Qed.

End JsFacts.

(** ** Links: [nodesShareConnection] and [buildLinks] *)

Section Links.
Implicit Types (a b : Item) (nodes : list Item) (l : Link).

Lemma nodesShareConnection_spec a b :
  nodesShareConnection a b = true ↔ sharesTag a b.
Proof.
  unfold nodesShareConnection, sharesTag.
  rewrite orb_true_iff, !JsFacts.some_spec.
  by setoid_rewrite JsFacts.includes_spec.
Qed.

Lemma foldl_ext {A B} (f g : A → B → A) (acc : A) (xs : list B) :
  (∀ acc x, f acc x = g acc x) → foldl f acc xs = foldl g acc xs.
Proof.
  intros Hfg. revert acc. induction xs as [|x xs IH]; intros acc; simpl; [done|].
  by rewrite Hfg, IH.
Qed.

Lemma foldl_push {A B} (f : B → option A) (acc : list A) (xs : list B) :
  foldl (λ acc x, match f x with Some y => acc ++ [y] | None => acc end) acc xs
  = acc ++ omap f xs.
Proof.
  revert acc. induction xs as [|x xs IH]; intros acc; simpl.
  - by rewrite app_nil_r.
  - rewrite IH. destruct (f x); [by rewrite <- app_assoc | done].
Qed.

Lemma foldl_nested {A B C} (g : B → list C) (f : B → C → option A)
    (acc : list A) (xs : list B) :
  foldl (λ acc x, acc ++ omap (f x) (g x)) acc xs
  = acc ++ omap (λ p, f p.1 p.2) (x ← xs; (λ y, (x, y)) <$> g x).
Proof.
  revert acc. induction xs as [|x xs IH]; intros acc; simpl.
  - by rewrite app_nil_r.
  - rewrite IH, omap_app, app_assoc. do 2 f_equal.
    induction (g x) as [|y ys IHy]; [done|].
    rewrite fmap_cons. cbn [omap list_omap fst snd]. rewrite <- IHy.
    by destruct (f x y).
Qed.

(** The loops push exactly the links of the index pairs, in order. *)
Lemma buildLinks_omap nodes :
  buildLinks nodes = omap (linkAt nodes) (indexPairs (length nodes)).
Proof.
  unfold buildLinks, indexPairs.
  rewrite <- (app_nil_l (omap _ _)).
  rewrite <- (foldl_nested (λ i, seq (S i) (length nodes - S i))
                (λ i j, linkAt nodes (i, j))).
  apply foldl_ext. intros links i.
  rewrite <- foldl_push. apply foldl_ext. intros acc j.
  unfold linkAt, linkOf. simpl.
  destruct (nodes !! i) as [ni|]; simpl; [|done].
  destruct (nodes !! j) as [nj|]; simpl; [|done].
  by destruct (nodesShareConnection ni nj).
Qed.

Lemma elem_of_indexPairs n i j :
  (i, j) ∈ indexPairs n ↔ i < j < n.
Proof.
  unfold indexPairs. rewrite list_elem_of_bind. split.
  - intros (i' & Hj & Hi). apply list_elem_of_fmap in Hj as (j' & Heq & Hj).
    inversion Heq; subst. apply elem_of_seq in Hi, Hj. lia.
  - intros Hij. exists i. split.
    + apply list_elem_of_fmap. exists j. split; [done|]. apply elem_of_seq. lia.
    + apply elem_of_seq. lia.
Qed.

Lemma NoDup_indexPairs n : NoDup (indexPairs n).
Proof.
  unfold indexPairs. apply NoDup_bind.
  - intros i1 i2 [i j] _ _ H1 H2.
    apply list_elem_of_fmap in H1 as (? & Heq1 & _).
    apply list_elem_of_fmap in H2 as (? & Heq2 & _). congruence.
  - intros i _. apply NoDup_fmap_2; [|apply NoDup_seq]. by intros ?? [=].
  - apply NoDup_seq.
Qed.

Lemma linkAt_Some nodes p l :
  linkAt nodes p = Some l ↔
  ∃ a b, nodes !! p.1 = Some a ∧ nodes !! p.2 = Some b
         ∧ sharesTag a b ∧ l = linkOf a b.
Proof.
  unfold linkAt. split.
  - destruct (nodes !! p.1) as [a|]; simpl; [|done].
    destruct (nodes !! p.2) as [b|]; simpl; [|done].
    destruct (nodesShareConnection a b) eqn:Hs; [|done].
    intros [= <-]. exists a, b. by rewrite <- nodesShareConnection_spec.
  - intros (a & b & -> & -> & Hs & ->). simpl.
    apply nodesShareConnection_spec in Hs. by rewrite Hs.
Qed.

Lemma omap_filter_Forall2 {A B} (f : A → option B) (xs : list A) :
  Forall2 (λ x y, f x = Some y) (filter (λ x, is_Some (f x)) xs) (omap f xs).
Proof.
  induction xs as [|x xs IH]; simpl; [constructor|].
  rewrite filter_cons. destruct (f x) as [y|] eqn:Hx.
  - rewrite decide_True by eauto. by constructor.
  - rewrite decide_False; [done|]. by intros [? ?].
Qed.

Lemma linkOf_ids a b : sid (linkOf a b) = id a ∧ tid (linkOf a b) = id b.
Proof. done. Qed.

(** In a list with distinct ids an id names one index. *)
Lemma unique_id_index nodes i j a b :
  NoDup (id <$> nodes) →
  nodes !! i = Some a → nodes !! j = Some b → id a = id b → i = j.
Proof.
  intros Hnd Hi Hj Heq.
  eapply (NoDup_lookup (id <$> nodes)); [done| |].
  - rewrite list_lookup_fmap, Hi. done.
  - rewrite list_lookup_fmap, Hj. simpl. by rewrite Heq.
Qed.

(** C1.  For every list of items, [buildLinks] returns exactly the links
    of the index pairs [(i, j)], [i < j], whose items share a theme or
    share a mood: there is a list [ps] that holds exactly those pairs,
    each once, such that the result is, position by position, the link
    from the id of item [i] to the id of item [j].  So no link joins an
    item to itself and no two links come from the same pair of items.
    When the ids of the list are pairwise distinct, as the data model
    requires of item ids, this reads on ids: no link has equal ends and
    no two positions of the result join the same unordered pair of
    ids. *)
Theorem buildLinks_exact nodes :
  ∃ ps : list (nat * nat),
    NoDup ps
    ∧ (∀ i j, (i, j) ∈ ps ↔
         i < j ∧ ∃ a b, nodes !! i = Some a ∧ nodes !! j = Some b ∧ sharesTag a b)
    ∧ Forall2 (λ p l, ∃ a b, nodes !! p.1 = Some a ∧ nodes !! p.2 = Some b
                             ∧ l = linkOf a b) ps (buildLinks nodes)
    ∧ (NoDup (id <$> nodes) →
         (∀ l, l ∈ buildLinks nodes → sid l ≠ tid l)
         ∧ (∀ p q l1 l2,
              buildLinks nodes !! p = Some l1 → buildLinks nodes !! q = Some l2 →
              samePair l1 l2 → p = q)).
Proof.
  set (ps := filter (λ p, is_Some (linkAt nodes p)) (indexPairs (length nodes))).
  assert (Hps : ∀ i j, (i, j) ∈ ps ↔
            i < j ∧ ∃ a b, nodes !! i = Some a ∧ nodes !! j = Some b ∧ sharesTag a b).
  { intros i j. unfold ps. rewrite list_elem_of_filter, elem_of_indexPairs. split.
    - intros [[l Hl] Hij]. apply linkAt_Some in Hl as (a & b & Ha & Hb & Hs & _).
      split; [lia|]. by exists a, b.
    - intros [Hij (a & b & Ha & Hb & Hs)]. split.
      + exists (linkOf a b). apply linkAt_Some. by exists a, b.
      + apply lookup_lt_Some in Hb. lia. }
  assert (Hall : Forall2 (λ p l, ∃ a b, nodes !! p.1 = Some a ∧ nodes !! p.2 = Some b
                             ∧ l = linkOf a b) ps (buildLinks nodes)).
  { rewrite buildLinks_omap. unfold ps.
    eapply Forall2_impl; [apply omap_filter_Forall2|].
    intros p l Hl. apply linkAt_Some in Hl as (a & b & Ha & Hb & _ & ->).
    by exists a, b. }
  assert (Hnd : NoDup ps) by (apply NoDup_filter, NoDup_indexPairs).
  exists ps. split_and!; try done.
  intros Hids. split.
  - intros l Hl. apply list_elem_of_lookup in Hl as [p Hp].
    destruct (Forall2_lookup_r _ _ _ _ _ Hall Hp) as ([i j] & Hij & a & b & Ha & Hb & ->).
    simpl in *. intros Heq.
    assert (i = j) by (by eapply unique_id_index).
    assert ((i, j) ∈ ps) as Hin by (apply list_elem_of_lookup; eauto).
    apply Hps in Hin. lia.
  - intros p q l1 l2 Hp Hq Hsame.
    destruct (Forall2_lookup_r _ _ _ _ _ Hall Hp)
      as ([i1 j1] & Hp1 & a1 & b1 & Ha1 & Hb1 & ->).
    destruct (Forall2_lookup_r _ _ _ _ _ Hall Hq)
      as ([i2 j2] & Hp2 & a2 & b2 & Ha2 & Hb2 & ->).
    simpl in *.
    assert ((i1, j1) ∈ ps) as Hin1 by (apply list_elem_of_lookup; eauto).
    assert ((i2, j2) ∈ ps) as Hin2 by (apply list_elem_of_lookup; eauto).
    apply Hps in Hin1 as [Hlt1 _]. apply Hps in Hin2 as [Hlt2 _].
    destruct Hsame as [[Hs Ht] | [Hs Ht]]; simpl in Hs, Ht.
    + assert (i1 = i2) by (by eapply unique_id_index).
      assert (j1 = j2) by (by eapply unique_id_index).
      apply (NoDup_lookup ps p q (i1, j1)); [done|done|].
      rewrite Hp2. congruence.
    + assert (i1 = j2) by (by eapply unique_id_index).
      assert (j1 = i2) by (by eapply unique_id_index).
      lia.
Qed.

End Links.

(** ** [Array.prototype.sort] under a consistent comparator *)

Section SortFacts.
Context {A : Type} (cmp : A → A → Z).
Hypothesis cmp_total : ∀ x y, (0 < cmp x y)%Z → (cmp y x ≤ 0)%Z.
Hypothesis cmp_trans : ∀ x y z, (cmp x y ≤ 0)%Z → (cmp y z ≤ 0)%Z → (cmp x z ≤ 0)%Z.

Lemma sort_insert_perm x l : Js.sort_insert cmp x l ≡ₚ x :: l.
Proof.
  induction l as [|y l IH]; simpl; [done|].
  destruct (0 <? cmp x y)%Z; [|done].
  rewrite IH. apply Permutation_swap.
Qed.

Lemma sort_perm l : Js.sort cmp l ≡ₚ l.
Proof.
  induction l as [|x l IH]; simpl; [done|].
  by rewrite sort_insert_perm, IH.
Qed.

Lemma sort_insert_sorted x l :
  Sorted (notAfter cmp) l → Sorted (notAfter cmp) (Js.sort_insert cmp x l).
Proof using cmp_total.
  induction 1 as [|y l Hl IH Hhd]; simpl; [by repeat constructor|].
  destruct (0 <? cmp x y)%Z eqn:Hxy.
  - apply Z.ltb_lt in Hxy. constructor; [done|].
    destruct Hhd as [|z l Hyz]; simpl.
    + constructor. by apply cmp_total.
    + destruct (0 <? cmp x z)%Z; constructor; [done|]. by apply cmp_total.
  - apply Z.ltb_ge in Hxy. by repeat constructor.
Qed.

Lemma sort_sorted l : Sorted (notAfter cmp) (Js.sort cmp l).
Proof using cmp_total.
  induction l as [|x l IH]; simpl; [constructor|]. by apply sort_insert_sorted.
Qed.

(** A sorted array is left as it is. *)
Lemma sort_of_sorted l : Sorted (notAfter cmp) l → Js.sort cmp l = l.
Proof.
  induction 1 as [|x l Hl IH Hhd]; simpl; [done|].
  rewrite IH. destruct Hhd as [|y l Hxy]; simpl; [done|].
  unfold notAfter in Hxy. by rewrite (proj2 (Z.ltb_ge _ _) Hxy).
Qed.

Lemma sort_idempotent l : Js.sort cmp (Js.sort cmp l) = Js.sort cmp l.
Proof using cmp_total. apply sort_of_sorted, sort_sorted. Qed.

Lemma Sorted_ascending l : Sorted (notAfter cmp) l → ascending (notAfter cmp) l.
Proof using cmp_trans.
  intros Hs. apply Sorted_StronglySorted in Hs; [|by intros x y z; apply cmp_trans].
  induction Hs as [|x l Hl IH Hall]; intros i j a b Hij Hi Hj; [done|].
  destruct j as [|j]; [lia|]. simpl in Hj.
  destruct i as [|i]; simpl in Hi.
  - injection Hi as <-. rewrite Forall_forall in Hall.
    apply Hall, list_elem_of_lookup. eauto.
  - eapply (IH i j); [lia|done..].
Qed.

Lemma sort_ascending l : ascending (notAfter cmp) (Js.sort cmp l).
Proof using cmp_total cmp_trans. apply Sorted_ascending, sort_sorted. Qed.

End SortFacts.

(** Sorting commutes with a map the comparator does not see. *)
Lemma sort_fmap {A B} (f : A → B) (cmpA : A → A → Z) (cmpB : B → B → Z) l :
  (∀ x y, cmpB (f x) (f y) = cmpA x y) →
  Js.sort cmpB (f <$> l) = f <$> Js.sort cmpA l.
Proof.
  intros Hf. induction l as [|x l IH]; [done|].
  rewrite fmap_cons. unfold Js.sort in *. rewrite !foldr_cons, IH.
  generalize (foldr (Js.sort_insert cmpA) [] l). intros k.
  induction k as [|y k IHk]; [done|].
  rewrite fmap_cons. cbn [Js.sort_insert]. rewrite Hf.
  destruct (0 <? cmpA x y)%Z; [by rewrite fmap_cons, IHk | done].
Qed.

(** ** The two comparators of [sortNodesByTag] *)

Section Comparators.
Context `{Collation}.

Lemma localeCompare_total a b :
  (0 < localeCompare a b)%Z → (localeCompare b a ≤ 0)%Z.
Proof. pose proof (localeCompare_antisym a b). lia. Qed.

Lemma or_else_sortKey a : Js.or_else (name a) (id a) = sortKey a.
Proof.
  unfold sortKey, Js.or_else. case_decide as Hn.
  - by rewrite Hn.
  - by destruct (name a).
Qed.

Lemma compareByName_key a b :
  compareByName a b = localeCompare (sortKey a) (sortKey b).
Proof. unfold compareByName. by rewrite !or_else_sortKey. Qed.

Lemma compareByTag_cases tag a b :
  compareByTag tag a b =
    if decide (tag ∈ themes a ∧ (tag ∉ themes b)) then (-1)%Z
    else if decide ((tag ∉ themes a) ∧ tag ∈ themes b) then 1%Z
    else localeCompare (sortKey a) (sortKey b).
Proof.
  unfold compareByTag. rewrite !or_else_sortKey.
  destruct (Js.includes (themes a) tag) eqn:Ha;
    destruct (Js.includes (themes b) tag) eqn:Hb; simpl;
    repeat match goal with
           | H : Js.includes _ _ = true |- _ => apply JsFacts.includes_spec in H
           | H : Js.includes _ _ = false |- _ => apply JsFacts.includes_false in H
           end;
    repeat case_decide; try done; tauto.
Qed.

Lemma compareByName_total a b :
  (0 < compareByName a b)%Z → (compareByName b a ≤ 0)%Z.
Proof. rewrite !compareByName_key. apply localeCompare_total. Qed.

Lemma compareByName_trans a b c :
  (compareByName a b ≤ 0)%Z → (compareByName b c ≤ 0)%Z → (compareByName a c ≤ 0)%Z.
Proof. rewrite !compareByName_key. apply localeCompare_trans. Qed.

Lemma compareByTag_total tag a b :
  (0 < compareByTag tag a b)%Z → (compareByTag tag b a ≤ 0)%Z.
Proof.
  rewrite !compareByTag_cases.
  pose proof (localeCompare_total (sortKey a) (sortKey b)).
  repeat case_decide; try lia; tauto.
Qed.

Lemma compareByTag_trans tag a b c :
  (compareByTag tag a b ≤ 0)%Z → (compareByTag tag b c ≤ 0)%Z →
  (compareByTag tag a c ≤ 0)%Z.
Proof.
  rewrite !compareByTag_cases.
  pose proof (localeCompare_trans (sortKey a) (sortKey b) (sortKey c)).
  destruct (decide (tag ∈ themes a)), (decide (tag ∈ themes b)),
    (decide (tag ∈ themes c)); repeat case_decide; try lia; tauto.
Qed.

Lemma tagComparator_total tag a b :
  (0 < tagComparator tag a b)%Z → (tagComparator tag b a ≤ 0)%Z.
Proof.
  unfold tagComparator. destruct (Js.truthy tag);
    [apply compareByTag_total | apply compareByName_total].
Qed.

Lemma tagComparator_trans tag a b c :
  (tagComparator tag a b ≤ 0)%Z → (tagComparator tag b c ≤ 0)%Z →
  (tagComparator tag a c ≤ 0)%Z.
Proof.
  unfold tagComparator. destruct (Js.truthy tag);
    [apply compareByTag_trans | apply compareByName_trans].
Qed.

(** What a call of [sortNodesByTag] does to the store: one new array,
    holding the sorted elements, at the first free location. *)
Lemma sortNodesByTag_run (h : Heap) nodes tag xs :
  h !! nodes = Some xs →
  sortNodesByTag nodes tag h
  = Some (length h, h ++ [Js.sort (tagComparator tag) xs]).
Proof.
  intros Hxs. unfold sortNodesByTag, tagComparator, Arr.sort, Arr.read, Arr.alloc,
    Arr.write, mbind, M_bind, mret, M_ret.
  rewrite Hxs.
  destruct (Js.truthy tag); simpl;
    rewrite (list_lookup_middle h [] xs (length h) eq_refl); simpl;
    rewrite (list_lookup_middle h [] xs (length h) eq_refl); simpl;
    rewrite insert_app_r_alt, Nat.sub_diag by done; done.
Qed.

Lemma applyThemeFilter_run (h : Heap) nodes theme xs :
  h !! nodes = Some xs →
  applyThemeFilter nodes theme h
  = if Js.truthy theme
    then Some (length h, h ++ [filter (λ n, Js.includes (themes n) theme) xs])
    else Some (nodes, h).
Proof.
  intros Hxs. unfold applyThemeFilter, Arr.read, Arr.alloc, mbind, M_bind, mret, M_ret.
  destruct (Js.truthy theme); simpl; [|done]. by rewrite Hxs.
Qed.

End Comparators.

(** ** The model of [sort] is the only stable sort

    For a consistent comparator, a list that is in ascending order, holds
    the elements of [xs] and keeps ties in their order is [Js.sort cmp xs]:
    the requirements of ECMAScript leave no other result. *)

Section SortUnique.
Context {A : Type} (cmp : A → A → Z).
Hypothesis cmp_antisym : ∀ x y, Z.sgn (cmp y x) = (- Z.sgn (cmp x y))%Z.
Hypothesis cmp_trans : ∀ x y z, (cmp x y ≤ 0)%Z → (cmp y z ≤ 0)%Z → (cmp x z ≤ 0)%Z.

Lemma antisym_total x y : (0 < cmp x y)%Z → (cmp y x ≤ 0)%Z.
Proof using cmp_antisym. pose proof (cmp_antisym x y). lia. Qed.

Lemma tie_refl x : cmp x x = 0%Z.
Proof using cmp_antisym. pose proof (cmp_antisym x x). lia. Qed.

Lemma tie_passes z x y : cmp z x = 0%Z → cmp z y = 0%Z → (cmp x y ≤ 0)%Z.
Proof using cmp_antisym cmp_trans.
  intros Hx Hy. apply (cmp_trans x z y); [|lia].
  pose proof (cmp_antisym z x). lia.
Qed.

Lemma sort_insert_stable x l :
  stableFor cmp (x :: l) (Js.sort_insert cmp x l).
Proof using cmp_antisym cmp_trans.
  intros z. induction l as [|y l IH]; [done|].
  cbn [Js.sort_insert]. destruct (Z.ltb_spec 0 (cmp x y)) as [Hlt|Hle]; [|done].
  rewrite (filter_cons _ y), IH, !filter_cons.
  destruct (decide (cmp z x = 0%Z)) as [Hx|Hx];
    destruct (decide (cmp z y = 0%Z)) as [Hy|Hy]; try done.
  pose proof (tie_passes z x y Hx Hy). lia.
Qed.

Lemma sort_stable xs : stableFor cmp xs (Js.sort cmp xs).
Proof using cmp_antisym cmp_trans.
  intros z. induction xs as [|x xs IH]; [done|].
  cbn [Js.sort foldr]. rewrite sort_insert_stable, !filter_cons.
  unfold Js.sort in IH. by rewrite IH.
Qed.

Lemma sorted_unique ys1 : ∀ ys2,
  Sorted (notAfter cmp) ys1 → Sorted (notAfter cmp) ys2 →
  ys1 ≡ₚ ys2 → stableFor cmp ys1 ys2 → ys1 = ys2.
Proof using cmp_antisym cmp_trans.
  induction ys1 as [|a t1 IH]; intros ys2 Hs1 Hs2 Hperm Hst.
  - by apply Permutation_nil_l in Hperm.
  - destruct ys2 as [|b t2]; [by apply Permutation_nil_r in Hperm|].
    assert (Transitive (notAfter cmp)) as Htr by (intros x y z; apply cmp_trans).
    apply Sorted_StronglySorted in Hs1 as Hss1; [|done].
    apply Sorted_StronglySorted in Hs2 as Hss2; [|done].
    apply StronglySorted_inv in Hss1 as [_ Hmin1].
    apply StronglySorted_inv in Hss2 as [_ Hmin2].
    rewrite Forall_forall in Hmin1, Hmin2.
    assert (cmp a b = 0%Z) as Hab.
    { assert (cmp a b ≤ 0)%Z as H1.
      { assert (b ∈ a :: t1) as Hin by (rewrite Hperm; apply list_elem_of_here).
        apply elem_of_cons in Hin as [->|Hin]; [by rewrite tie_refl | by apply Hmin1]. }
      assert (cmp b a ≤ 0)%Z as H2.
      { assert (a ∈ b :: t2) as Hin by (rewrite <- Hperm; apply list_elem_of_here).
        apply elem_of_cons in Hin as [->|Hin]; [by rewrite tie_refl | by apply Hmin2]. }
      pose proof (cmp_antisym a b). lia. }
    assert (a = b) as <-.
    { specialize (Hst a). rewrite !filter_cons in Hst.
      rewrite decide_True in Hst by done.
      rewrite (decide_True (P := cmp a a = 0%Z)) in Hst by apply tie_refl.
      by injection Hst. }
    f_equal. apply IH.
    + by apply Sorted_inv in Hs1 as [? _].
    + by apply Sorted_inv in Hs2 as [? _].
    + by apply Permutation_cons_inv in Hperm.
    + intros z. specialize (Hst z). rewrite !filter_cons in Hst.
      destruct (decide (cmp z a = 0%Z)); [by injection Hst | done].
Qed.

(** Any stable sort of [xs] is [Js.sort cmp xs]. *)
Lemma sort_determined xs ys :
  Sorted (notAfter cmp) ys → ys ≡ₚ xs → stableFor cmp xs ys →
  ys = Js.sort cmp xs.
Proof using cmp_antisym cmp_trans.
  intros Hs Hperm Hst. apply sorted_unique; [done| | |].
  - apply sort_sorted, antisym_total.
  - by rewrite Hperm, sort_perm.
  - intros z. by rewrite sort_stable, Hst.
Qed.

End SortUnique.

(** ** The ordering policy: [sortNodesByTag] *)

Section OrderingFacts.
Context `{Collation}.
Implicit Types (h : list (list Item)) (xs ys : list Item) (a b : Item).

Lemma compareByTag_notAfter tag a b :
  (compareByTag tag a b ≤ 0)%Z →
  (tag ∈ themes b → tag ∈ themes a)
  ∧ ((tag ∈ themes a ↔ tag ∈ themes b) →
     (localeCompare (sortKey a) (sortKey b) ≤ 0)%Z).
Proof.
  rewrite compareByTag_cases.
  destruct (decide (tag ∈ themes a)), (decide (tag ∈ themes b));
    repeat case_decide; try lia; tauto.
Qed.

Lemma compareByTag_same_bucket tag a b :
  (tag ∈ themes a ↔ tag ∈ themes b) →
  compareByTag tag a b = localeCompare (sortKey a) (sortKey b).
Proof. rewrite compareByTag_cases. repeat case_decide; tauto. Qed.

Lemma ascending_impl {A} (R S : A → A → Prop) (l : list A) :
  (∀ x y, R x y → S x y) → ascending R l → ascending S l.
Proof. intros HRS Hl i j x y Hij Hi Hj. eapply HRS, Hl; eauto. Qed.

Lemma sorted_by_tagComparator tag xs :
  ascending (notAfter (tagComparator tag)) (Js.sort (tagComparator tag) xs).
Proof.
  apply sort_ascending;
    [apply tagComparator_total | apply tagComparator_trans].
Qed.

Lemma sorted_no_tag xs :
  ascending (λ a b, (localeCompare (sortKey a) (sortKey b) ≤ 0)%Z)
    (Js.sort (tagComparator "") xs).
Proof.
  eapply ascending_impl; [|apply sorted_by_tagComparator].
  intros a b. unfold notAfter, tagComparator. simpl. by rewrite compareByName_key.
Qed.

Lemma sorted_tag tag xs :
  tag ≠ "" →
  ascending (λ a b,
    (tag ∈ themes b → tag ∈ themes a)
    ∧ ((tag ∈ themes a ↔ tag ∈ themes b) →
       (localeCompare (sortKey a) (sortKey b) ≤ 0)%Z))
    (Js.sort (tagComparator tag) xs).
Proof.
  intros Htag. eapply ascending_impl; [|apply sorted_by_tagComparator].
  intros a b. unfold notAfter, tagComparator.
  apply JsFacts.truthy_spec in Htag. rewrite Htag. apply compareByTag_notAfter.
Qed.

(** C4, as amended.  For every store, array [nodes] and tag,
    [sortNodesByTag] returns a new array and leaves every array of the
    store, its input among them, as it was; the new array holds the
    elements of the input.  With no tag it is in ascending order of the
    sort key, the display name or, when the display name is empty, the
    id.  With a tag, no item without the tag precedes an item with it,
    and two items that both have or both lack the tag are in ascending
    order of the sort key. *)
Theorem sortNodesByTag_order h nodes tag xs :
  h !! nodes = Some xs →
  ∃ ys,
    sortNodesByTag nodes tag h = Some (length h, h ++ [ys])
    ∧ h !! length h = None
    ∧ (∀ r, r < length h → (h ++ [ys]) !! r = h !! r)
    ∧ (h ++ [ys]) !! nodes = Some xs
    ∧ ys ≡ₚ xs
    ∧ (tag = "" →
       ascending (λ a b, (localeCompare (sortKey a) (sortKey b) ≤ 0)%Z) ys)
    ∧ (tag ≠ "" →
       ascending (λ a b,
         (tag ∈ themes b → tag ∈ themes a)
         ∧ ((tag ∈ themes a ↔ tag ∈ themes b) →
            (localeCompare (sortKey a) (sortKey b) ≤ 0)%Z)) ys).
Proof.
  intros Hxs. exists (Js.sort (tagComparator tag) xs).
  split_and!.
  - by apply sortNodesByTag_run.
  - by apply lookup_ge_None.
  - intros r Hr. by apply lookup_app_l.
  - rewrite lookup_app_l; [done|]. by eapply lookup_lt_Some.
  - apply sort_perm.
  - intros ->. apply sorted_no_tag.
  - apply sorted_tag.
Qed.

Lemma compareByTag_antisym tag a b :
  Z.sgn (compareByTag tag b a) = (- Z.sgn (compareByTag tag a b))%Z.
Proof.
  rewrite !compareByTag_cases.
  pose proof (localeCompare_antisym (sortKey a) (sortKey b)).
  repeat case_decide; try done; tauto.
Qed.

Lemma tagComparator_antisym tag a b :
  Z.sgn (tagComparator tag b a) = (- Z.sgn (tagComparator tag a b))%Z.
Proof.
  unfold tagComparator. destruct (Js.truthy tag); [apply compareByTag_antisym|].
  rewrite !compareByName_key. apply localeCompare_antisym.
Qed.

(** The result of [sortNodesByTag] is fixed by what ECMAScript asks of
    [sort]: whatever array is in ascending order of the comparator,
    holds the elements of the input and keeps ties in their order is the
    array [sortNodesByTag] returns. *)
Lemma sortNodesByTag_determined h nodes tag xs ys :
  h !! nodes = Some xs →
  Sorted (notAfter (tagComparator tag)) ys → ys ≡ₚ xs →
  stableFor (tagComparator tag) xs ys →
  sortNodesByTag nodes tag h = Some (length h, h ++ [ys]).
Proof.
  intros Hxs Hs Hperm Hst. rewrite (sortNodesByTag_run h nodes tag xs Hxs).
  do 4 f_equal. symmetry.
  apply sort_determined; [apply tagComparator_antisym|apply tagComparator_trans|done..].
Qed.

(** C8.  Sorting the array that [sortNodesByTag] returned, with the same
    tag, returns an array with the same elements in the same order. *)
Theorem sortNodesByTag_idempotent h nodes tag xs :
  h !! nodes = Some xs →
  ∃ r1 h1 r2 h2 ys,
    sortNodesByTag nodes tag h = Some (r1, h1)
    ∧ h1 !! r1 = Some ys
    ∧ sortNodesByTag r1 tag h1 = Some (r2, h2)
    ∧ h2 !! r2 = Some ys.
Proof.
  intros Hxs.
  set (ys := Js.sort (tagComparator tag) xs).
  assert (Hys : (h ++ [ys]) !! length h = Some ys) by by apply list_lookup_middle.
  exists (length h), (h ++ [ys]), (length (h ++ [ys])),
    ((h ++ [ys]) ++ [Js.sort (tagComparator tag) ys]), ys.
  split_and!.
  - by apply sortNodesByTag_run.
  - done.
  - by apply sortNodesByTag_run.
  - rewrite list_lookup_middle by done. f_equal.
    apply sort_idempotent, tagComparator_total.
Qed.

End OrderingFacts.

(** ** Loading: names and tags of loaded items *)

Section Loading.
Implicit Types (d : RawEntry) (t : RawTags).

Lemma join_empty xs : Js.join ", " xs = "" → xs = [] ∨ xs = [""].
Proof.
  destruct xs as [|x [|y xs]]; simpl; [by left | intros ->; by right |].
  by destruct x.
Qed.

Lemma tags_or_empty_concat_arg t x : x ∈ tags_or_empty t → x ∈ concat_arg t.
Proof. destruct t as [|ts|[] ?]; simpl; try done; by intros ?%elem_of_nil. Qed.

Lemma loadEntry_no_name d :
  (raw_name d = None ∨ raw_name d = Some "") →
  concat_arg (raw_themes d) = [] → concat_arg (raw_moods d) = [] →
  name (loadEntry d) = "".
Proof. intros [Hn|Hn] Ht Hm; simpl; by rewrite Hn, Ht, Hm. Qed.

(** A loaded item with an empty name has no non-empty theme. *)
Lemma loadEntry_empty_name_themes d tag :
  name (loadEntry d) = "" → tag ≠ "" → tag ∉ themes (loadEntry d).
Proof.
  simpl. intros Hname Htag Hin.
  assert (Js.join ", " (concat_arg (raw_themes d) ++ concat_arg (raw_moods d)) = "")
    as Hjoin.
  { unfold Js.or_else in Hname. by destruct (Js.truthy _) eqn:Ht, (default "" _). }
  apply tags_or_empty_concat_arg in Hin.
  assert (tag ∈ concat_arg (raw_themes d) ++ concat_arg (raw_moods d)) as Hin'
    by (apply elem_of_app; by left).
  destruct (join_empty _ Hjoin) as [Heq|Heq]; rewrite Heq in Hin'.
  - by apply elem_of_nil in Hin'.
  - apply list_elem_of_singleton in Hin'. done.
Qed.

End Loading.

(** ** The sort key of items with an empty name *)

Section KeyFallback.
Context `{Collation}.

Lemma sortKey_empty_name a : name a = "" → sortKey a = id a.
Proof. intros Hn. unfold sortKey. by rewrite decide_True. Qed.

Lemma sortKey_named a : name a ≠ "" → sortKey a = name a.
Proof. intros Hn. unfold sortKey. by rewrite decide_False. Qed.

(** C10.  Both comparators compare sort keys: the one without a tag
    always, the one with a tag whenever the two items both have or both
    lack the tag.  The sort key of an item is its id when its name is
    empty and its name otherwise.  A data entry with no name (or an
    empty one) whose themes and moods contribute nothing to the
    concatenation is loaded with the empty name.  Hence in the array
    that [sortNodesByTag] returns for loaded items, with or without a
    tag, the items with an empty name are in ascending order of id. *)
Theorem empty_name_sorted_by_id :
  (∀ a b, compareByName a b = localeCompare (sortKey a) (sortKey b))
  ∧ (∀ tag a b, (tag ∈ themes a ↔ tag ∈ themes b) →
       compareByTag tag a b = localeCompare (sortKey a) (sortKey b))
  ∧ (∀ a, (name a = "" → sortKey a = id a) ∧ (name a ≠ "" → sortKey a = name a))
  ∧ (∀ d, (raw_name d = None ∨ raw_name d = Some "") →
       concat_arg (raw_themes d) = [] → concat_arg (raw_moods d) = [] →
       name (loadEntry d) = "")
  ∧ (∀ (h : list (list Item)) nodes tag raws,
       h !! nodes = Some (loadEntry <$> raws) →
       ∃ ys, sortNodesByTag nodes tag h = Some (length h, h ++ [ys])
             ∧ ys ≡ₚ loadEntry <$> raws
             ∧ ascending (λ a b, name a = "" → name b = "" →
                                 (localeCompare (id a) (id b) ≤ 0)%Z) ys).
Proof.
  split_and!.
  - apply compareByName_key.
  - apply compareByTag_same_bucket.
  - intros a. split; [apply sortKey_empty_name | apply sortKey_named].
  - apply loadEntry_no_name.
  - intros h nodes tag raws Hxs.
    set (ys := Js.sort (tagComparator tag) (loadEntry <$> raws)).
    assert (ys ≡ₚ loadEntry <$> raws) as Hperm by apply sort_perm.
    exists ys. split_and!; [by apply sortNodesByTag_run | done |].
    intros i j a b Hij Hi Hj Ha Hb.
    rewrite <- (sortKey_empty_name a Ha), <- (sortKey_empty_name b Hb).
    destruct (decide (tag = "")) as [->|Hne].
    + by eapply (sorted_no_tag (loadEntry <$> raws) i j).
    + assert (∀ x k, ys !! k = Some x → name x = "" → tag ∉ themes x) as Hout.
      { intros x k Hk Hx.
        assert (x ∈ loadEntry <$> raws) as Hin.
        { rewrite <- Hperm. apply list_elem_of_lookup. eauto. }
        apply list_elem_of_fmap in Hin as (d & -> & _).
        by apply loadEntry_empty_name_themes. }
      destruct (sorted_tag tag (loadEntry <$> raws) Hne i j a b Hij Hi Hj)
        as [_ Hkey].
      apply Hkey. split; intros Hin; exfalso;
        [exact (Hout a i Hi Ha Hin) | exact (Hout b j Hj Hb Hin)].
Qed.

End KeyFallback.

(** ** The link force: resolving the ends of links *)

Section Resolve.
Implicit Types (ns : list Item) (m : gmap string Item) (l r : Link).

Lemma nodeById_acc_Some ns m a :
  a ∈ ns → ∃ n, foldl (λ m d, <[id d := d]> m) m ns !! id a = Some n
                ∧ id n = id a ∧ n ∈ ns.
Proof.
  revert m. induction ns as [|d ns IH] using rev_ind; intros m Ha.
  - by apply elem_of_nil in Ha.
  - rewrite foldl_app. simpl.
    destruct (decide (id d = id a)) as [Heq|Hne].
    + exists d. rewrite Heq, lookup_insert_eq. split_and!; [done..|].
      apply elem_of_app. right. by apply list_elem_of_singleton.
    + rewrite lookup_insert_ne by done.
      apply elem_of_app in Ha as [Ha|Ha].
      * destruct (IH m Ha) as (n & Hn & Hid & Hin). exists n. split_and!; [done..|].
        apply elem_of_app. by left.
      * apply list_elem_of_singleton in Ha. by subst.
Qed.

Lemma resolveEnd_id ns i :
  i ∈ id <$> ns →
  ∃ n, resolveEnd (nodeById ns) (EId i) = Some (ENode n) ∧ id n = i ∧ n ∈ ns.
Proof.
  intros Hi. apply list_elem_of_fmap in Hi as (a & -> & Ha).
  destruct (nodeById_acc_Some ns ∅ a Ha) as (n & Hn & Hid & Hin).
  exists n. unfold nodeById. simpl. by rewrite Hn.
Qed.

Lemma buildLinks_ids ns l :
  l ∈ buildLinks ns →
  ∃ a b, a ∈ ns ∧ b ∈ ns ∧ sharesTag a b ∧ l = linkOf a b.
Proof.
  rewrite buildLinks_omap, list_elem_of_omap.
  intros (p & _ & Hl). apply linkAt_Some in Hl as (a & b & Ha & Hb & Hs & ->).
  exists a, b. split_and!; try done; apply list_elem_of_lookup; eauto.
Qed.

(** Resolving the links [buildLinks] made for the same ids succeeds, and
    keeps the id of each end. *)
Lemma resolveLinks_buildLinks ns ns' :
  (∀ i, i ∈ id <$> ns → i ∈ id <$> ns') →
  ∃ resolved,
    resolveLinks ns' (buildLinks ns) = Some resolved
    ∧ Forall2 (λ l r, sid r = sid l ∧ tid r = tid l
                      ∧ ∃ a b, a ∈ ns' ∧ b ∈ ns'
                               ∧ source r = ENode a ∧ target r = ENode b)
        (buildLinks ns) resolved.
Proof.
  intros Hsub.
  assert (Forall (λ l, ∃ r, (λ l,
      s ← resolveEnd (nodeById ns') (source l);
      t ← resolveEnd (nodeById ns') (target l);
      Some {| source := s; target := t |}) l = Some r
      ∧ sid r = sid l ∧ tid r = tid l
      ∧ ∃ a b, a ∈ ns' ∧ b ∈ ns' ∧ source r = ENode a ∧ target r = ENode b)
    (buildLinks ns)) as Hall.
  { apply Forall_forall. intros l Hl.
    apply buildLinks_ids in Hl as (a & b & Ha & Hb & _ & ->).
    destruct (resolveEnd_id ns' (id a)) as (na & Hna & Hida & Hina).
    { apply Hsub, list_elem_of_fmap. eauto. }
    destruct (resolveEnd_id ns' (id b)) as (nb & Hnb & Hidb & Hinb).
    { apply Hsub, list_elem_of_fmap. eauto. }
    exists {| source := ENode na; target := ENode nb |}.
    unfold linkOf. cbn [source target]. rewrite Hna, Hnb. simpl.
    split_and!; try done. by exists na, nb. }
  induction Hall as [|l ls (r & Hr & Hrest) _ (rs & Hrs & Hall2)].
  - exists []. by split; [|constructor].
  - exists (r :: rs). unfold resolveLinks in *. split.
    + apply mapM_Some. constructor; [done|]. by apply mapM_Some.
    + by constructor.
Qed.

End Resolve.

(** ** Filter change: what [rebuildForFilter] leaves *)

Section Rebuild.
Context `{Collation}.
Implicit Types (w : World) (full nodes : list Item).

Lemma initGraph_run rect r links w ns resolved :
  heap w !! r = Some ns →
  resolveLinks ns links = Some resolved →
  initGraph rect r links w = Some
    {| heap := heap w;
       graphData_nodes := graphData_nodes w;
       graphData_links := graphData_links w;
       fullNodes := fullNodes w;
       simulation := Some (newSimulation rect r resolved);
       activeThemeFilter := activeThemeFilter w;
       hoveredNodeId := hoveredNodeId w;
       svg := newSvg rect ns resolved |}.
Proof.
  intros Hns Hres. unfold initGraph. cbn [getDimensions].
  rewrite Hns. simpl. rewrite Hres. done.
Qed.

Lemma rebuildForFilter_run rect theme w full :
  heap w !! fullNodes w = Some full →
  let nodes := Js.sort (tagComparator theme) (selected theme full) in
  let h1 := filteredHeap theme (heap w) full in
  ∃ resolved,
    resolveLinks nodes (buildLinks nodes) = Some resolved
    ∧ rebuildForFilter rect theme w = Some
        {| heap := h1 ++ [nodes];
           graphData_nodes := length h1;
           graphData_links := resolved;
           fullNodes := fullNodes w;
           simulation := Some (newSimulation rect (length h1) resolved);
           activeThemeFilter := theme;
           hoveredNodeId := hoveredNodeId w;
           svg := newSvg rect nodes resolved |}.
Proof.
  intros Hfull nodes h1.
  destruct (resolveLinks_buildLinks nodes nodes) as (resolved & Hres & _); [done|].
  exists resolved. split; [done|].
  unfold rebuildForFilter.
  rewrite (applyThemeFilter_run _ _ _ _ Hfull).
  assert (∃ filtered, (if Js.truthy theme
            then Some (length (heap w), heap w ++ [filter (λ n, Js.includes (themes n) theme) full])
            else Some (fullNodes w, heap w)) = Some (filtered, h1)
          ∧ h1 !! filtered = Some (selected theme full)) as (filtered & -> & Hsel).
  { unfold h1, filteredHeap, selected. destruct (Js.truthy theme).
    - eexists. split; [done|]. by apply list_lookup_middle.
    - eexists. split; done. }
  simpl. rewrite (sortNodesByTag_run _ _ _ _ Hsel). simpl.
  fold nodes. rewrite (list_lookup_middle h1 [] nodes (length h1) eq_refl). simpl.
  erewrite initGraph_run; [done| |done].
  simpl. by apply list_lookup_middle.
Qed.

End Rebuild.

(** ** Filter projection *)

Section Projection.
Context `{Collation}.
Implicit Types (w : World) (full nodes : list Item).

Lemma selected_tag theme full :
  theme ≠ "" → selected theme full = filter (λ a, theme ∈ themes a) full.
Proof.
  intros Ht. unfold selected. apply JsFacts.truthy_spec in Ht. rewrite Ht.
  apply list_filter_iff. intros a.
  by rewrite Is_true_true, JsFacts.includes_spec.
Qed.

Lemma selected_withMoods f theme full :
  selected theme (withMoods f <$> full) = withMoods f <$> selected theme full.
Proof.
  unfold selected. destruct (Js.truthy theme); [|done].
  induction full as [|a full IH]; [done|].
  rewrite !fmap_cons, !filter_cons. simpl.
  destruct (decide (Js.includes (themes a) theme)); by rewrite IH.
Qed.

Lemma tagComparator_withMoods f theme a b :
  tagComparator theme (withMoods f a) (withMoods f b) = tagComparator theme a b.
Proof. unfold tagComparator. by destruct (Js.truthy theme). Qed.

(** C3.  For every state whose full item array holds [full] and every
    non-empty tag [T], [rebuildForFilter] succeeds and leaves as current
    nodes an array that holds exactly the items of [full] with [T] among
    their themes, each as often as in [full], in the order of the
    ordering policy (all of them have the tag, so ascending by sort
    key); every current link has, at each end, the id of one of these
    nodes.  Replacing the moods of the items changes nothing but the
    moods of the nodes. *)
Theorem rebuildForFilter_projection rect T w full :
  T ≠ "" →
  heap w !! fullNodes w = Some full →
  ∃ w' nodes,
    rebuildForFilter rect T w = Some w'
    ∧ heap w' !! graphData_nodes w' = Some nodes
    ∧ nodes ≡ₚ filter (λ a, T ∈ themes a) full
    ∧ nodes = Js.sort (tagComparator T) (filter (λ a, T ∈ themes a) full)
    ∧ ascending (λ a b, (localeCompare (sortKey a) (sortKey b) ≤ 0)%Z) nodes
    ∧ Forall (λ l, sid l ∈ id <$> nodes ∧ tid l ∈ id <$> nodes) (graphData_links w')
    ∧ (∀ f w2, heap w2 !! fullNodes w2 = Some (withMoods f <$> full) →
         ∃ w2', rebuildForFilter rect T w2 = Some w2'
                ∧ heap w2' !! graphData_nodes w2' = Some (withMoods f <$> nodes)).
Proof.
  intros HT Hfull.
  destruct (rebuildForFilter_run rect T w full Hfull) as (resolved & Hres & Hrun).
  rewrite (selected_tag T full HT) in Hres, Hrun.
  set (nodes := Js.sort (tagComparator T) (filter (λ a, T ∈ themes a) full)) in *.
  assert (nodes ≡ₚ filter (λ a, T ∈ themes a) full) as Hperm by apply sort_perm.
  eexists _, nodes. split; [exact Hrun|]. cbn [heap graphData_nodes graphData_links].
  split_and!.
  - by apply list_lookup_middle.
  - done.
  - done.
  - intros i j a b Hij Hi Hj.
    assert (∀ k x, nodes !! k = Some x → T ∈ themes x) as Hsel.
    { intros k x Hk.
      assert (x ∈ filter (λ a, T ∈ themes a) full) as Hx.
      { rewrite <- Hperm. apply list_elem_of_lookup. eauto. }
      by apply list_elem_of_filter in Hx as [? _]. }
    pose proof (sorted_by_tagComparator T (filter (λ a, T ∈ themes a) full)
                  i j a b Hij Hi Hj) as Hab.
    unfold notAfter, tagComparator in Hab.
    rewrite (proj2 (JsFacts.truthy_spec T) HT) in Hab.
    apply compareByTag_notAfter in Hab as [_ Hkey]. apply Hkey.
    split; intros _; eauto.
  - destruct (resolveLinks_buildLinks nodes nodes) as (resolved' & Hres' & Hall);
      [done|].
    rewrite Hres in Hres'. injection Hres' as <-.
    apply Forall_lookup. intros k r Hr.
    destruct (Forall2_lookup_r _ _ _ _ _ Hall Hr) as (l & Hl & Hs & Ht & _).
    assert (l ∈ buildLinks nodes) as Hin by (apply list_elem_of_lookup; eauto).
    apply buildLinks_ids in Hin as (a & b & Ha & Hb & _ & ->).
    rewrite Hs, Ht. split; apply list_elem_of_fmap; eauto.
  - intros f w2 Hfull2.
    destruct (rebuildForFilter_run rect T w2 _ Hfull2) as (resolved2 & _ & Hrun2).
    eexists. split; [exact Hrun2|]. cbn [heap graphData_nodes].
    rewrite list_lookup_middle by done. f_equal.
    rewrite selected_withMoods, (selected_tag T full HT).
    apply sort_fmap, tagComparator_withMoods.
Qed.

End Projection.

(** ** Hover *)

Section Hover.
Implicit Types (w : World) (nodes : list Item) (nodeId : option string)
  (links : list Link) (n x : string).

Lemma is_hovered_id_spec nodeId x : is_hovered_id nodeId x = true ↔ nodeId = Some x.
Proof. unfold is_hovered_id. by rewrite bool_decide_eq_true. Qed.

Lemma hovering_Some n : n ≠ "" → hovering (Some n) = true.
Proof. intros Hn. by apply JsFacts.truthy_spec. Qed.

Lemma hovering_false nodeId :
  nodeId = None ∨ nodeId = Some "" → hovering nodeId = false.
Proof. by intros [-> | ->]. Qed.

Lemma connect_step n l (acc : gset string) x :
  x ∈ (let acc := if is_hovered_id (Some n) (sid l) then acc ∪ {[ tid l ]} else acc in
       if is_hovered_id (Some n) (tid l) then acc ∪ {[ sid l ]} else acc)
  ↔ x ∈ acc ∨ joins l n x.
Proof.
  unfold joins. cbv zeta.
  destruct (is_hovered_id (Some n) (sid l)) eqn:Hs;
    destruct (is_hovered_id (Some n) (tid l)) eqn:Ht;
    rewrite ?elem_of_union, ?elem_of_singleton;
    try (apply is_hovered_id_spec in Hs; injection Hs as Hs);
    try (apply is_hovered_id_spec in Ht; injection Ht as Ht);
    try (apply not_true_iff_false in Hs; rewrite is_hovered_id_spec in Hs);
    try (apply not_true_iff_false in Ht; rewrite is_hovered_id_spec in Ht);
    intuition congruence.
Qed.

Lemma connectedIds_acc n links (acc : gset string) x :
  x ∈ foldl (λ (acc : gset string) l,
        let acc := if is_hovered_id (Some n) (sid l) then acc ∪ {[ tid l ]} else acc in
        if is_hovered_id (Some n) (tid l) then acc ∪ {[ sid l ]} else acc) acc links
  ↔ x ∈ acc ∨ ∃ l, l ∈ links ∧ joins l n x.
Proof.
  revert acc. induction links as [|l links IH]; intros acc.
  - simpl. split; [by left|]. intros [?|(l & Hl & _)]; [done|].
    by apply elem_of_nil in Hl.
  - cbn [foldl]. rewrite IH, connect_step. split.
    + intros [[Hx|Hx]|(l' & Hl' & Hx)]; [by left|right..].
      * exists l. split; [apply list_elem_of_here | done].
      * exists l'. split; [by apply list_elem_of_further | done].
    + intros [Hx|(l' & Hl' & Hx)]; [by left; left|].
      apply elem_of_cons in Hl' as [->|Hl']; [by left; right|].
      right. by exists l'.
Qed.

(** The connected ids of a hovered, non-empty id are the ids one link
    away from it. *)
Lemma connectedIds_spec n links x :
  n ≠ "" →
  x ∈ connectedIds (Some n) links ↔ ∃ l, l ∈ links ∧ joins l n x.
Proof.
  intros Hn. unfold connectedIds. rewrite hovering_Some by done.
  rewrite connectedIds_acc. split; [|by right].
  intros [Hx|Hx]; [|done]. by apply elem_of_empty in Hx.
Qed.

Lemma connectedIds_idle nodeId links :
  hovering nodeId = false → connectedIds nodeId links = ∅.
Proof. intros Hh. unfold connectedIds. by rewrite Hh. Qed.

Lemma setHover_run w nodes nodeId :
  heap w !! graphData_nodes w = Some nodes →
  setHover nodeId w = Some
    {| heap := heap w;
       graphData_nodes := graphData_nodes w;
       graphData_links := graphData_links w;
       fullNodes := fullNodes w;
       simulation := simulation w;
       activeThemeFilter := activeThemeFilter w;
       hoveredNodeId := nodeId;
       svg := if Nat.eqb (length nodes) 0 then svg w
              else {| svg_width := svg_width (svg w);
                      svg_height := svg_height (svg w);
                      svg_viewBox := svg_viewBox (svg w);
                      svg_links := hoverLink nodeId <$> svg_links (svg w);
                      svg_nodes :=
                        hoverNode nodeId (connectedIds nodeId (graphData_links w))
                          <$> svg_nodes (svg w) |} |}.
Proof. intros Hn. unfold setHover. rewrite Hn. done. Qed.

Lemma hoverNode_datum nodeId s el : node_datum (hoverNode nodeId s el) = node_datum el.
Proof. unfold hoverNode. by repeat case_match. Qed.

Lemma hoverLink_datum nodeId el : link_datum (hoverLink nodeId el) = link_datum el.
Proof. done. Qed.

Lemma setHover_rendered w nodes nodeId :
  rendered w nodes →
  ∃ w', setHover nodeId w = Some w'
        ∧ rendered w' nodes
        ∧ graphData_links w' = graphData_links w
        ∧ hoveredNodeId w' = nodeId
        ∧ (nodes ≠ [] →
           svg_nodes (svg w')
           = hoverNode nodeId (connectedIds nodeId (graphData_links w))
               <$> svg_nodes (svg w)
           ∧ svg_links (svg w') = hoverLink nodeId <$> svg_links (svg w)).
Proof.
  intros (Hheap & Hnodes & Hlinks).
  eexists. split; [by apply setHover_run|]. cbn [heap graphData_nodes graphData_links
    hoveredNodeId svg].
  split_and!; try done.
  - split_and!; [done|..]; destruct nodes; simpl; try done.
    + rewrite <- list_fmap_compose. rewrite <- Hnodes.
      apply list_fmap_ext. intros ???. apply hoverNode_datum.
    + rewrite <- list_fmap_compose. rewrite <- Hlinks. done.
  - intros Hne. by destruct nodes.
Qed.

Lemma rendered_node w nodes k d :
  rendered w nodes → nodes !! k = Some d →
  ∃ el, svg_nodes (svg w) !! k = Some el ∧ node_datum el = d.
Proof.
  intros (_ & Hnodes & _) Hk. rewrite <- Hnodes, list_lookup_fmap in Hk.
  destruct (svg_nodes (svg w) !! k) as [el|]; simplify_eq/=. eauto.
Qed.

Lemma rendered_link w nodes k l :
  rendered w nodes → graphData_links w !! k = Some l →
  ∃ el, svg_links (svg w) !! k = Some el ∧ link_datum el = l.
Proof.
  intros (_ & _ & Hlinks) Hk. rewrite <- Hlinks, list_lookup_fmap in Hk.
  destruct (svg_links (svg w) !! k) as [el|]; simplify_eq/=. eauto.
Qed.

(** C2, as amended.  In every state that shows its graph, [setHover]
    succeeds and changes neither the nodes nor the links.  For a hovered
    id [n] that is not the empty string, the connected ids are exactly
    the ids joined to [n] by a link, and each node element ends as
    follows: the node with id [n] at opacity 1 and scale [hoverScale];
    another node whose id is connected at opacity 1 and scale
    [connectedScale]; any other node at opacity [unrelatedOpacity],
    which is below 1, and scale 1.  When the hovered id is [null] or the
    empty string, every node element ends at opacity 1 and scale 1. *)
Theorem setHover_highlight w nodes nodeId :
  rendered w nodes →
  ∃ w',
    setHover nodeId w = Some w'
    ∧ rendered w' nodes
    ∧ graphData_links w' = graphData_links w
    ∧ (unrelatedOpacity CONFIG < 1)%Q
    ∧ (∀ n, nodeId = Some n → n ≠ "" →
         (∀ x, x ∈ connectedIds nodeId (graphData_links w)
               ↔ ∃ l, l ∈ graphData_links w ∧ joins l n x)
         ∧ ∀ k d, nodes !! k = Some d →
             ∃ el, svg_nodes (svg w') !! k = Some el ∧ node_datum el = d
               ∧ (id d = n → styled el 1 (hoverScale CONFIG))
               ∧ (id d ≠ n → id d ∈ connectedIds nodeId (graphData_links w) →
                  styled el 1 (connectedScale CONFIG))
               ∧ (id d ≠ n → id d ∉ connectedIds nodeId (graphData_links w) →
                  styled el (unrelatedOpacity CONFIG) 1))
    ∧ (nodeId = None ∨ nodeId = Some "" →
         ∀ k d, nodes !! k = Some d →
           ∃ el, svg_nodes (svg w') !! k = Some el ∧ node_datum el = d
                 ∧ styled el 1 1).
Proof.
  intros Hr.
  destruct (setHover_rendered w nodes nodeId Hr) as (w' & Hrun & Hr' & Hl & _ & Hsvg).
  exists w'. split_and!; [done..| |].
  - intros n -> Hn. split; [intros x; by apply connectedIds_spec|].
    intros k d Hk.
    destruct (rendered_node w nodes k d Hr Hk) as (el0 & Hel0 & Hd).
    destruct Hsvg as [Hsvg _]; [by intros ->|].
    eexists. rewrite Hsvg, list_lookup_fmap, Hel0. simpl.
    split; [done|]. rewrite hoverNode_datum. split; [done|].
    unfold hoverNode, styled. rewrite hovering_Some by done. rewrite Hd. simpl.
    destruct (is_hovered_id (Some n) (id d)) eqn:Hid.
    + apply is_hovered_id_spec in Hid. injection Hid as ->.
      split_and!; simpl; try done.
    + apply not_true_iff_false in Hid. rewrite is_hovered_id_spec in Hid.
      assert (id d ≠ n) by congruence.
      case_bool_decide; split_and!; simpl; try done.
  - intros Hidle k d Hk.
    destruct (rendered_node w nodes k d Hr Hk) as (el0 & Hel0 & Hd).
    destruct Hsvg as [Hsvg _]; [by intros ->|].
    eexists. rewrite Hsvg, list_lookup_fmap, Hel0. simpl.
    split; [done|]. rewrite hoverNode_datum. split; [done|].
    unfold hoverNode, styled. by rewrite hovering_false.
Qed.

(** Hovering an id no node has, in a state that shows its graph and
    whose links join only its nodes: every node element ends dimmed,
    every link element keeps the neutral stroke colour and is marked
    dimmed. *)
Lemma setHover_absent w nodes n :
  rendered w nodes → linksWithin w nodes →
  n ≠ "" → n ∉ id <$> nodes →
  ∃ w',
    setHover (Some n) w = Some w'
    ∧ (∀ k d, nodes !! k = Some d →
         ∃ el, svg_nodes (svg w') !! k = Some el ∧ node_datum el = d
               ∧ styled el (unrelatedOpacity CONFIG) 1
               ∧ node_hovered el = false ∧ node_connected el = false)
    ∧ (nodes ≠ [] → ∀ k l, graphData_links w !! k = Some l →
         ∃ el, svg_links (svg w') !! k = Some el ∧ link_datum el = l
               ∧ link_stroke el = lineColor CONFIG
               ∧ link_dimmed el = true ∧ link_hovered el = false).
Proof.
  intros Hr Hwithin Hn Habsent.
  destruct (setHover_rendered w nodes (Some n) Hr) as (w' & Hrun & Hr' & Hl & _ & Hsvg).
  assert (∀ l, l ∈ graphData_links w → sid l ≠ n ∧ tid l ≠ n) as Hends.
  { intros l Hin. unfold linksWithin in Hwithin. rewrite Forall_forall in Hwithin.
    destruct (Hwithin l Hin). split; congruence. }
  exists w'. split_and!; [done|..].
  - intros k d Hk.
    destruct (rendered_node w nodes k d Hr Hk) as (el0 & Hel0 & Hd).
    destruct Hsvg as [Hsvg _]; [by intros ->|].
    eexists. rewrite Hsvg, list_lookup_fmap, Hel0. simpl.
    split; [done|]. rewrite hoverNode_datum. split; [done|].
    assert (id d ≠ n) as Hdn.
    { intros <-. apply Habsent, list_elem_of_fmap. exists d. split; [done|].
      apply list_elem_of_lookup. eauto. }
    assert (id d ∉ connectedIds (Some n) (graphData_links w)) as Hnc.
    { rewrite connectedIds_spec by done. intros (l & Hin & Hj).
      destruct (Hends l Hin). destruct Hj as [[? _]|[? _]]; done. }
    unfold hoverNode, styled. rewrite hovering_Some by done. rewrite Hd. simpl.
    assert (is_hovered_id (Some n) (id d) = false) as ->.
    { apply not_true_iff_false. rewrite is_hovered_id_spec. congruence. }
    by rewrite bool_decide_eq_false_2.
  - intros Hne k l Hk.
    destruct (rendered_link w nodes k l Hr Hk) as (el0 & Hel0 & Hd).
    destruct Hsvg as [_ Hsvg]; [done|].
    eexists. rewrite Hsvg, list_lookup_fmap, Hel0.
    split; [reflexivity|]. split; [done|].
    assert (l ∈ graphData_links w) as Hin by (apply list_elem_of_lookup; eauto).
    destruct (Hends l Hin) as [Hs Ht].
    unfold hoverLink. cbn [link_datum link_stroke link_dimmed link_hovered].
    rewrite hovering_Some by done. rewrite Hd.
    assert (is_hovered_id (Some n) (sid l) = false) as ->.
    { apply not_true_iff_false. rewrite is_hovered_id_spec. congruence. }
    assert (is_hovered_id (Some n) (tid l) = false) as ->.
    { apply not_true_iff_false. rewrite is_hovered_id_spec. congruence. }
    done.
Qed.

End Hover.

(** ** Loading an entry without a themes array *)

Section MissingThemes.
Implicit Types (d : RawEntry) (a b : Item).

Lemma loadData_run raw (h : list (list Item)) :
  loadData raw h
  = Some ((length h, buildLinks (loadEntry <$> default [] raw)),
          h ++ [loadEntry <$> default [] raw]).
Proof.
  unfold loadData, Arr.alloc, Arr.read, mbind, M_bind, mret, M_ret.
  by rewrite list_lookup_middle.
Qed.





End MissingThemes.

(** ** Resize *)

(** C9, as amended.  [onResize] leaves the store, the current nodes and
    links, the full item array, the filter, the hovered id and the link
    and node elements as they are, and sets the width, height and view
    box of the drawing surface to the new dimensions.  When there is a
    simulation, its nodes, links, link distance, charge and collision
    radius stay, its centre force is aimed at the middle of the new
    dimensions, its temperature is set to 0.3 and its timer runs; when
    there is none, none is made. *)
Theorem onResize_frame rect w :
  let w' := onResize rect w in
  heap w' = heap w
  ∧ graphData_nodes w' = graphData_nodes w
  ∧ graphData_links w' = graphData_links w
  ∧ fullNodes w' = fullNodes w
  ∧ activeThemeFilter w' = activeThemeFilter w
  ∧ hoveredNodeId w' = hoveredNodeId w
  ∧ svg_links (svg w') = svg_links (svg w)
  ∧ svg_nodes (svg w') = svg_nodes (svg w)
  ∧ svg_width (svg w') = (getDimensions rect).1
  ∧ svg_height (svg w') = (getDimensions rect).2
  ∧ svg_viewBox (svg w') = (0%Q, 0%Q, (getDimensions rect).1, (getDimensions rect).2)
  ∧ match simulation w with
    | None => simulation w' = None
    | Some s =>
        ∃ s', simulation w' = Some s'
          ∧ sim_nodes s' = sim_nodes s
          ∧ sim_links s' = sim_links s
          ∧ sim_link_distance s' = sim_link_distance s
          ∧ sim_charge s' = sim_charge s
          ∧ sim_collide_radius s' = sim_collide_radius s
          ∧ sim_center s' = {| center_x := ((getDimensions rect).1 / 2)%Q;
                               center_y := ((getDimensions rect).2 / 2)%Q;
                               center_strength := centerStrength CONFIG |}
          ∧ sim_alpha s' = 0.3%Q
          ∧ sim_running s' = true
    end.
Proof.
  unfold onResize. cbn [getDimensions fst snd]. cbv zeta.
  cbn [heap graphData_nodes graphData_links fullNodes activeThemeFilter hoveredNodeId
       svg svg_links svg_nodes svg_width svg_height svg_viewBox simulation].
  split_and!; try done.
  destruct (simulation w) as [s|]; [|done].
  eexists. split; [done|]. by split_and!.
Qed.

(** ** Start-up, and what every reachable state shows *)

Section Reachable.
Context `{Collation}.
Implicit Types (w : World) (full nodes : list Item).

Lemma newSvg_data rect nodes links :
  node_datum <$> svg_nodes (newSvg rect nodes links) = nodes
  ∧ link_datum <$> svg_links (newSvg rect nodes links) = links.
Proof.
  unfold newSvg. cbn [svg_nodes svg_links].
  rewrite <- !list_fmap_compose. split; apply list_fmap_id.
Qed.

Lemma resolved_within ns ns' resolved :
  (∀ i, i ∈ id <$> ns → i ∈ id <$> ns') →
  resolveLinks ns' (buildLinks ns) = Some resolved →
  Forall (λ l, sid l ∈ id <$> ns' ∧ tid l ∈ id <$> ns') resolved.
Proof.
  intros Hsub Hres.
  destruct (resolveLinks_buildLinks ns ns' Hsub) as (resolved' & Hres' & Hall).
  rewrite Hres in Hres'. injection Hres' as <-.
  apply Forall_lookup. intros k r Hr.
  destruct (Forall2_lookup_r _ _ _ _ _ Hall Hr) as (l & Hl & Hs & Ht & _).
  assert (l ∈ buildLinks ns) as Hin by (apply list_elem_of_lookup; eauto).
  apply buildLinks_ids in Hin as (a & b & Ha & Hb & _ & ->).
  rewrite Hs, Ht. split; apply Hsub, list_elem_of_fmap; eauto.
Qed.

Lemma init_run rect raw w :
  let xs := loadEntry <$> default [] raw in
  let sorted := Js.sort (tagComparator "") xs in
  let h1 := heap w ++ [xs] in
  ∃ resolved,
    resolveLinks sorted (buildLinks xs) = Some resolved
    ∧ init rect raw w = Some
        {| heap := h1 ++ [sorted];
           graphData_nodes := length h1;
           graphData_links := resolved;
           fullNodes := length h1;
           simulation := Some (newSimulation rect (length h1) resolved);
           activeThemeFilter := activeThemeFilter w;
           hoveredNodeId := hoveredNodeId w;
           svg := newSvg rect sorted resolved |}.
Proof.
  intros xs sorted h1.
  destruct (resolveLinks_buildLinks xs sorted) as (resolved & Hres & _).
  { intros i. unfold sorted. by rewrite sort_perm. }
  exists resolved. split; [done|].
  unfold init. rewrite loadData_run. fold xs. fold h1. simpl.
  rewrite (sortNodesByTag_run h1 (length (heap w)) "" xs)
    by by apply list_lookup_middle.
  fold sorted. simpl.
  erewrite initGraph_run; [done| |done].
  simpl. by apply list_lookup_middle.
Qed.

(** After start-up the drawing shows the graph, and the links join its
    nodes. *)
Lemma init_rendered rect raw w :
  ∃ w' nodes,
    init rect raw w = Some w'
    ∧ rendered w' nodes ∧ linksWithin w' nodes
    ∧ heap w' !! fullNodes w' = Some nodes
    ∧ nodes ≡ₚ loadEntry <$> default [] raw.
Proof.
  destruct (init_run rect raw w) as (resolved & Hres & Hrun).
  eexists _, _. split; [exact Hrun|].
  assert (∀ {A} (l : list A) x, (l ++ [x]) !! length l = Some x) as Hmid
    by (intros; by apply list_lookup_middle).
  split_and!.
  - split; [apply Hmid | apply newSvg_data].
  - eapply resolved_within; [|exact Hres]. intros i. by rewrite sort_perm.
  - apply Hmid.
  - apply sort_perm.
Qed.

(** After a filter change the drawing shows the filtered graph, the
    links join its nodes, and the full item array and the hovered id
    are as before. *)
Lemma rebuildForFilter_rendered rect theme w full :
  heap w !! fullNodes w = Some full →
  ∃ w',
    rebuildForFilter rect theme w = Some w'
    ∧ rendered w' (Js.sort (tagComparator theme) (selected theme full))
    ∧ linksWithin w' (Js.sort (tagComparator theme) (selected theme full))
    ∧ heap w' !! fullNodes w' = Some full
    ∧ hoveredNodeId w' = hoveredNodeId w.
Proof.
  intros Hfull.
  destruct (rebuildForFilter_run rect theme w full Hfull) as (resolved & Hres & Hrun).
  eexists. split; [exact Hrun|].
  split_and!.
  - split; [by apply list_lookup_middle | apply newSvg_data].
  - by eapply resolved_within.
  - cbn [heap fullNodes]. rewrite lookup_app_l.
    + unfold filteredHeap. destruct (Js.truthy theme); [|done].
      rewrite lookup_app_l; [done|]. by eapply lookup_lt_Some.
    + unfold filteredHeap. destruct (Js.truthy theme).
      * rewrite length_app. apply lookup_lt_Some in Hfull. lia.
      * by eapply lookup_lt_Some.
  - done.
Qed.

Lemma onResize_rendered rect w nodes :
  rendered w nodes → linksWithin w nodes →
  rendered (onResize rect w) nodes ∧ linksWithin (onResize rect w) nodes.
Proof. intros (? & ? & ?) ?. by repeat split. Qed.

(** Every reachable state shows its graph, its links join its nodes and
    its full item array exists; and it handles every event whose node
    element exists. *)
Lemma reachable_shown w : reachable w → shown w.
Proof.
  induction 1 as [rect raw w Hinit | e w w' _ (nodes & full & Hr & Hl & Hfull) Hstep].
  - destruct (init_rendered rect raw boot) as (w0 & nodes & Hrun & Hr & Hl & Hfull & _).
    rewrite Hinit in Hrun. injection Hrun as <-. by exists nodes, nodes.
  - assert (∀ nodeId, setHover nodeId w = Some w' → shown w') as Hhover.
    { intros nodeId Hrun.
      destruct (setHover_rendered w nodes nodeId Hr) as (w1 & Hrun1 & Hr1 & Hl1 & _).
      rewrite Hrun in Hrun1. injection Hrun1 as <-.
      exists nodes, full. split_and!; [done| |].
      - unfold linksWithin. by rewrite Hl1.
      - rewrite (setHover_run w nodes nodeId) in Hrun by apply Hr.
        injection Hrun as <-. done. }
    destruct e as [k| |rect theme|rect]; simpl in Hstep.
    + destruct (svg_nodes (svg w) !! k) as [el|]; [|done]. by eapply Hhover.
    + by eapply Hhover.
    + destruct (rebuildForFilter_rendered rect theme w full Hfull)
        as (w1 & Hrun & Hr1 & Hl1 & Hfull1 & _).
      rewrite Hstep in Hrun. injection Hrun as <-. by eexists _, full.
    + injection Hstep as <-. exists nodes, full.
      destruct (onResize_rendered rect w nodes Hr Hl). by split_and!.
Qed.

Lemma reachable_handles w e :
  reachable w →
  (∀ k, e = PointerEnter k → is_Some (svg_nodes (svg w) !! k)) →
  is_Some (handle e w).
Proof.
  intros (nodes & full & Hr & Hl & Hfull)%reachable_shown Hk.
  destruct e as [k| |rect theme|rect]; simpl.
  - destruct (Hk k eq_refl) as [el ->]. simpl.
    destruct (setHover_rendered w nodes (Some (id (node_datum el))) Hr) as (w1 & -> & _).
    done.
  - destruct (setHover_rendered w nodes None Hr) as (w1 & -> & _). done.
  - destruct (rebuildForFilter_rendered rect theme w full Hfull) as (w1 & -> & _). done.
  - done.
Qed.

(** [setHover] itself does not look for the hovered id among the
    nodes.  A filter change keeps the hovered id, also when its node is
    no longer in the graph, and replaces the node and link elements by
    new ones that carry no highlight.  Were [setHover] called for an id
    that is not empty and is not the id of any current node, in a state
    that shows its graph and whose links join only its nodes, every
    node element would end at opacity [unrelatedOpacity] and scale 1,
    and every link element at the neutral stroke colour, marked
    dimmed. *)
Lemma setHover_stale_call :
  (∀ rect theme w full,
     heap w !! fullNodes w = Some full →
     ∃ w' nodes,
       rebuildForFilter rect theme w = Some w'
       ∧ hoveredNodeId w' = hoveredNodeId w
       ∧ rendered w' nodes ∧ linksWithin w' nodes
       ∧ svg_nodes (svg w') = newNodeEl <$> nodes
       ∧ svg_links (svg w') = newLinkEl <$> graphData_links w')
  ∧ (∀ w nodes n,
       rendered w nodes → linksWithin w nodes →
       n ≠ "" → n ∉ id <$> nodes →
       ∃ w',
         setHover (Some n) w = Some w'
         ∧ (∀ k d, nodes !! k = Some d →
              ∃ el, svg_nodes (svg w') !! k = Some el ∧ node_datum el = d
                    ∧ styled el (unrelatedOpacity CONFIG) 1
                    ∧ node_hovered el = false ∧ node_connected el = false)
         ∧ (nodes ≠ [] → ∀ k l, graphData_links w !! k = Some l →
              ∃ el, svg_links (svg w') !! k = Some el ∧ link_datum el = l
                    ∧ link_stroke el = lineColor CONFIG
                    ∧ link_dimmed el = true ∧ link_hovered el = false)).
Proof.
  split.
  - intros rect theme w full Hfull.
    destruct (rebuildForFilter_rendered rect theme w full Hfull)
      as (w' & Hrun & Hr & Hl & _ & Hhov).
    exists w', (Js.sort (tagComparator theme) (selected theme full)).
    split_and!; try done.
    + destruct (rebuildForFilter_run rect theme w full Hfull) as (resolved & _ & Hrun').
      rewrite Hrun in Hrun'. by injection Hrun' as ->.
    + destruct (rebuildForFilter_run rect theme w full Hfull) as (resolved & _ & Hrun').
      rewrite Hrun in Hrun'. by injection Hrun' as ->.
  - apply setHover_absent.
Qed.

Lemma newSvg_idle rect nodes links :
  Forall idleNode (svg_nodes (newSvg rect nodes links))
  ∧ Forall idleLink (svg_links (newSvg rect nodes links)).
Proof.
  unfold newSvg. cbn [svg_nodes svg_links].
  split; apply Forall_fmap, Forall_forall; intros x _.
  - unfold idleNode. cbn. by split_and!; [..|left|left].
  - unfold idleLink. by cbn.
Qed.

Lemma hoverNode_idle s el : idleNode (hoverNode None s el).
Proof. unfold idleNode, hoverNode. cbn. by split_and!; [..|right|right]. Qed.

Lemma hoverLink_idle_el el : idleLink (hoverLink None el).
Proof. unfold idleLink, hoverLink. by cbn. Qed.

(** In every reachable state the hovered id is the id of a current
    node, or no element is highlighted: [setHover] is called with the
    id of a current element or with [null], and the filter change,
    which may remove the hovered node, makes new elements. *)
Lemma reachable_hoverSettled w : reachable w → hoverSettled w.
Proof.
  induction 1 as [rect raw w Hinit | e w w' Hreach IH Hstep].
  - destruct (init_run rect raw boot) as (resolved & _ & Hrun).
    rewrite Hinit in Hrun. injection Hrun as ->.
    right. apply newSvg_idle.
  - destruct (reachable_shown w Hreach) as (nodes & full & Hr & Hl & Hfull).
    destruct e as [k| |rect theme|rect]; simpl in Hstep.
    + destruct (svg_nodes (svg w) !! k) as [el|] eqn:Hk; [|done]. simpl in Hstep.
      rewrite (setHover_run w nodes) in Hstep by apply Hr.
      injection Hstep as <-. left.
      exists (id (node_datum el)), nodes. cbn [hoveredNodeId heap graphData_nodes].
      split_and!; [done | apply Hr |].
      destruct Hr as (_ & <- & _). rewrite <- list_fmap_compose.
      apply list_elem_of_fmap. exists el. split; [done|].
      apply list_elem_of_lookup. eauto.
    + rewrite (setHover_run w nodes) in Hstep by apply Hr.
      injection Hstep as <-. right. cbn [svg].
      destruct nodes as [|d nodes]; cbn [length Nat.eqb].
      * destruct Hr as (_ & Hnodes & Hlinks).
        apply fmap_nil_inv in Hnodes. rewrite Hnodes.
        assert (graphData_links w = []) as Hnil.
        { unfold linksWithin in Hl. destruct (graphData_links w) as [|l ls]; [done|].
          apply Forall_cons in Hl as [[Hs _] _]. cbn in Hs. by apply elem_of_nil in Hs. }
        rewrite Hnil in Hlinks. apply fmap_nil_inv in Hlinks. rewrite Hlinks.
        split; apply Forall_nil_2.
      * cbn [svg_nodes svg_links].
        split; apply Forall_fmap, Forall_forall; intros x _.
        -- apply hoverNode_idle.
        -- apply hoverLink_idle_el.
    + destruct (rebuildForFilter_run rect theme w full Hfull) as (resolved & _ & Hrun).
      rewrite Hstep in Hrun. injection Hrun as ->.
      right. apply newSvg_idle.
    + injection Hstep as <-. destruct IH as [(n & ns & Hn & Hns & Hin)|[Hn Hls]].
      * left. by exists n, ns.
      * by right.
Qed.

(** C6.  A hovered id that is not the id of any current node (a stale
    hover: it arises when a filter change removes the hovered node)
    goes with idle semantics in every state the page reaches: every
    node element is without highlight class, at an opacity of 1 or
    never given one, and at an image scale of 1 or never given one,
    and every link element is at the neutral stroke colour, neither
    hovered nor dimmed. *)
Theorem stale_hover_idle w n nodes :
  reachable w →
  hoveredNodeId w = Some n →
  heap w !! graphData_nodes w = Some nodes →
  n ∉ id <$> nodes →
  (∀ k d, nodes !! k = Some d →
     ∃ el, svg_nodes (svg w) !! k = Some el ∧ node_datum el = d ∧ idleNode el)
  ∧ (∀ k l, graphData_links w !! k = Some l →
       ∃ el, svg_links (svg w) !! k = Some el ∧ link_datum el = l ∧ idleLink el).
Proof.
  intros Hreach Hn Hnodes Hstale.
  destruct (reachable_shown w Hreach) as (nodes' & full & Hr & _ & _).
  assert (nodes' = nodes) as -> by (destruct Hr as (Hh & _); congruence).
  destruct (reachable_hoverSettled w Hreach) as [(n' & ns & Hn' & Hns & Hin)|[Hidle Hlidle]].
  { exfalso. apply Hstale. congruence. }
  split.
  - intros k d Hk. destruct (rendered_node w nodes k d Hr Hk) as (el & Hel & Hd).
    exists el. split_and!; [done..|].
    eapply Forall_lookup_1; eauto.
  - intros k l Hk. destruct (rendered_link w nodes k l Hr Hk) as (el & Hel & Hd).
    exists el. split_and!; [done..|].
    eapply Forall_lookup_1; eauto.
Qed.

End Reachable.

(** ** The scenario *)

Section ScenarioFacts.
Context `{Collation}.
Variables (img : string → string) (src : string → option string).

Abbreviation A := (Scenario.A img src).
Abbreviation B := (Scenario.B img src).
Abbreviation C := (Scenario.C img src).
Abbreviation D := (Scenario.D img src).

Lemma scenario_selected full :
  full ≡ₚ [A; B; C; D] →
  selected "y" full = [B; C] ∨ selected "y" full = [C; B].
Proof.
  intros Hperm. rewrite selected_tag by done.
  apply Permutation_length_2_inv.
  rewrite Hperm. reflexivity.
Qed.

Lemma scenario_sorted full :
  (localeCompare "x, y" "y" < 0)%Z →
  full ≡ₚ [A; B; C; D] →
  Js.sort (tagComparator "y") (selected "y" full) = [B; C].
Proof.
  intros Hlt Hperm.
  pose proof (localeCompare_antisym "x, y" "y") as Hanti.
  assert (compareByTag "y" B C = localeCompare "x, y" "y") as HBC by reflexivity.
  assert (compareByTag "y" C B = localeCompare "y" "x, y") as HCB by reflexivity.
  destruct (scenario_selected full Hperm) as [-> | ->];
    unfold Js.sort, tagComparator; cbn [foldr Js.sort_insert Js.truthy].
  - rewrite HBC. destruct (Z.ltb_spec 0 (localeCompare "x, y" "y")); [lia|done].
  - rewrite HCB. destruct (Z.ltb_spec 0 (localeCompare "y" "x, y")); [done|lia].
Qed.

(** C5.  For the four items of the scenario, on a platform whose
    collation puts the name ["x, y"] of [B] before the name ["y"] of
    [C]: [buildLinks] returns the link from [A] to [B] and the link from
    [B] to [C] and nothing else; start-up succeeds and leaves a full
    item array that holds the four items; and from every state whose
    full item array holds the four items in any order, the filter [y]
    leaves the nodes [B], [C] in this order and the one link between
    [B] and [C]. *)
Theorem scenario_links_and_filter :
  (localeCompare "x, y" "y" < 0)%Z →
  buildLinks [A; B; C; D] = [linkOf A B; linkOf B C]
  ∧ (∀ rect, ∃ w0 full,
       init rect (Some (Scenario.raws img src)) boot = Some w0
       ∧ heap w0 !! fullNodes w0 = Some full
       ∧ full ≡ₚ [A; B; C; D])
  ∧ (∀ rect w full,
       full ≡ₚ [A; B; C; D] →
       heap w !! fullNodes w = Some full →
       ∃ w', rebuildForFilter rect "y" w = Some w'
             ∧ heap w' !! graphData_nodes w' = Some [B; C]
             ∧ graphData_links w' = [ {| source := ENode B; target := ENode C |} ]).
Proof.
  intros Hlt. split_and!.
  - reflexivity.
  - intros rect.
    destruct (init_rendered rect (Some (Scenario.raws img src)) boot)
      as (w0 & full & Hinit & _ & _ & Hfull & Hperm).
    by exists w0, full.
  - intros rect w full Hperm Hfull.
    destruct (rebuildForFilter_run rect "y" w full Hfull) as (resolved & Hres & Hrun).
    rewrite (scenario_sorted full Hlt Hperm) in Hres, Hrun.
    eexists. split; [exact Hrun|]. cbn [heap graphData_nodes graphData_links].
    split; [by apply list_lookup_middle|].
    vm_compute in Hres. by injection Hres as <-.
Qed.

End ScenarioFacts.

(** ** The properties on concrete data *)

Ltac by_computation := refine (bool_decide_unpack _ _); vm_compute; exact I.

Example loaded_is_init :
  @init CodeUnit.collation Demo.rect (Some (Scenario.raws Demo.img Demo.src)) boot
  = Some Demo.loaded.
Proof. vm_compute. reflexivity. Qed.

Example loaded_full_nodes :
  heap Demo.loaded !! fullNodes Demo.loaded = Some [Demo.A; Demo.B; Demo.C; Demo.D].
Proof. vm_compute. reflexivity. Qed.

Example loaded_rendered : rendered Demo.loaded [Demo.A; Demo.B; Demo.C; Demo.D].
Proof. unfold rendered. split_and!; vm_compute; reflexivity. Qed.

(** With equal ids a link from an id to itself does occur: the clause of
    C1 on equal ends rests on the ids being distinct. *)
Example buildLinks_equal_ids :
  buildLinks [Demo.twin1; Demo.twin2] = [ {| source := EId "A"; target := EId "A" |} ].
Proof. vm_compute. reflexivity. Qed.

Lemma buildLinks_exact_witness :
  NoDup (id <$> [Demo.A; Demo.B; Demo.C; Demo.D])
  ∧ ∀ l, l ∈ buildLinks [Demo.A; Demo.B; Demo.C; Demo.D] → sid l ≠ tid l.
Proof.
  assert (NoDup (id <$> [Demo.A; Demo.B; Demo.C; Demo.D])) as Hnd by by_computation.
  split; [exact Hnd|].
  destruct (buildLinks_exact [Demo.A; Demo.B; Demo.C; Demo.D]) as (ps & _ & _ & _ & Hids).
  exact (proj1 (Hids Hnd)).
Defined.

Lemma setHover_highlight_witness :
  rendered Demo.loaded [Demo.A; Demo.B; Demo.C; Demo.D]
  ∧ ∃ w', setHover (Some "B") Demo.loaded = Some w'
          ∧ rendered w' [Demo.A; Demo.B; Demo.C; Demo.D]
          ∧ graphData_links w' = graphData_links Demo.loaded.
Proof.
  assert (rendered Demo.loaded [Demo.A; Demo.B; Demo.C; Demo.D]) as Hr.
  { unfold rendered. split_and!; vm_compute; reflexivity. }
  split; [exact Hr|].
  destruct (setHover_highlight Demo.loaded _ (Some "B") Hr) as (w' & Hrun & Hr' & Hl & _).
  exists w'. split_and!; assumption.
Defined.

(** Hovering [B] in the unfiltered scenario: [B] is the hovered node, [A]
    and [C] are connected, [D] is dimmed. *)
Example hover_B :
  ∃ w', setHover (Some "B") Demo.loaded = Some w'
    ∧ (λ el, (id (node_datum el), node_opacity el, image_scale el))
        <$> svg_nodes (svg w')
      = [ ("A", Some 1%Q, Some 1.1%Q); ("B", Some 1%Q, Some 1.4%Q);
          ("C", Some 1%Q, Some 1.1%Q); ("D", Some 0.3%Q, Some 1%Q) ].
Proof. eexists. split; vm_compute; reflexivity. Qed.

(** C2 as stated fails for a node whose id is the empty string: the
    document has such a node, the pointer enters its element, and its
    image ends at scale 1 instead of [hoverScale]. *)
Lemma setHover_empty_id_counterexample :
  ∃ w w' nodes el,
    @init CodeUnit.collation Demo.rect (Some Demo.raws_empty_id) boot = Some w
    ∧ rendered w nodes
    ∧ "" ∈ id <$> nodes
    ∧ @handle CodeUnit.collation (PointerEnter 0) w = Some w'
    ∧ setHover (Some "") w = Some w'
    ∧ hoveredNodeId w' = Some ""
    ∧ svg_nodes (svg w') !! 0 = Some el
    ∧ id (node_datum el) = ""
    ∧ image_scale el = Some 1%Q
    ∧ image_scale el ≠ Some (hoverScale CONFIG).
Proof.
  eexists _, _, _, _. split_and!.
  - vm_compute. reflexivity.
  - unfold rendered. split_and!; vm_compute; reflexivity.
  - by_computation.
  - vm_compute. reflexivity.
  - vm_compute. reflexivity.
  - reflexivity.
  - vm_compute. reflexivity.
  - reflexivity.
  - reflexivity.
  - discriminate.
Qed.

Lemma rebuildForFilter_projection_witness :
  "y" ≠ ""
  ∧ heap Demo.loaded !! fullNodes Demo.loaded = Some [Demo.A; Demo.B; Demo.C; Demo.D]
  ∧ ∃ w' nodes,
      @rebuildForFilter CodeUnit.collation Demo.rect "y" Demo.loaded = Some w'
      ∧ heap w' !! graphData_nodes w' = Some nodes
      ∧ nodes ≡ₚ filter (λ a, "y" ∈ themes a) [Demo.A; Demo.B; Demo.C; Demo.D].
Proof.
  assert ("y" ≠ "") as Hy by discriminate.
  assert (heap Demo.loaded !! fullNodes Demo.loaded
          = Some [Demo.A; Demo.B; Demo.C; Demo.D]) as Hfull
    by (vm_compute; reflexivity).
  split; [exact Hy|]. split; [exact Hfull|].
  destruct (@rebuildForFilter_projection CodeUnit.collation Demo.rect "y" Demo.loaded
              _ Hy Hfull) as (w' & nodes & Hrun & Hnodes & Hperm & _).
  exists w', nodes. split_and!; assumption.
Defined.

Lemma sortNodesByTag_order_witness :
  [[Demo.D; Demo.C; Demo.B; Demo.A]] !! 0 = Some [Demo.D; Demo.C; Demo.B; Demo.A]
  ∧ ∃ ys, @sortNodesByTag CodeUnit.collation 0 "y" [[Demo.D; Demo.C; Demo.B; Demo.A]]
          = Some (1, [[Demo.D; Demo.C; Demo.B; Demo.A]] ++ [ys])
          ∧ ys ≡ₚ [Demo.D; Demo.C; Demo.B; Demo.A].
Proof.
  assert ([[Demo.D; Demo.C; Demo.B; Demo.A]] !! 0
          = Some [Demo.D; Demo.C; Demo.B; Demo.A]) as Hxs by reflexivity.
  split; [exact Hxs|].
  destruct (@sortNodesByTag_order CodeUnit.collation _ 0 "y" _ Hxs)
    as (ys & Hrun & _ & _ & _ & Hperm & _).
  exists ys. split; assumption.
Defined.

Example sort_by_tag_y :
  @sortNodesByTag CodeUnit.collation 0 "y" [[Demo.D; Demo.C; Demo.B; Demo.A]]
  = Some (1, [[Demo.D; Demo.C; Demo.B; Demo.A]; [Demo.B; Demo.C; Demo.A; Demo.D]]).
Proof. vm_compute. reflexivity. Qed.

(** C4 as stated fails when a display name is empty: with no tag the
    untagged item, whose name is empty and whose id is ["z"], is placed
    after the item named ["m"], so the display names of the result are
    not ascending. *)
Lemma sortNodesByTag_displayName_counterexample :
  @sortNodesByTag CodeUnit.collation 0 "" [[Demo.untagged; Demo.named]]
  = Some (1, [[Demo.untagged; Demo.named]; [Demo.named; Demo.untagged]])
  ∧ name Demo.named = "m" ∧ name Demo.untagged = ""
  ∧ (0 < @localeCompare CodeUnit.collation (name Demo.named) (name Demo.untagged))%Z.
Proof. split_and!; vm_compute; reflexivity. Qed.

Lemma scenario_links_and_filter_witness :
  (@localeCompare CodeUnit.collation "x, y" "y" < 0)%Z
  ∧ buildLinks [Demo.A; Demo.B; Demo.C; Demo.D]
    = [linkOf Demo.A Demo.B; linkOf Demo.B Demo.C]
  ∧ ∃ w', @rebuildForFilter CodeUnit.collation Demo.rect "y" Demo.loaded = Some w'
          ∧ heap w' !! graphData_nodes w' = Some [Demo.B; Demo.C]
          ∧ graphData_links w'
            = [ {| source := ENode Demo.B; target := ENode Demo.C |} ].
Proof.
  assert (@localeCompare CodeUnit.collation "x, y" "y" < 0)%Z as Hlt by reflexivity.
  split; [exact Hlt|].
  destruct (@scenario_links_and_filter CodeUnit.collation Demo.img Demo.src Hlt)
    as (Hlinks & _ & Hfilter).
  split; [exact Hlinks|].
  apply (Hfilter Demo.rect Demo.loaded [Demo.A; Demo.B; Demo.C; Demo.D]).
  - reflexivity.
  - vm_compute. reflexivity.
Defined.

Lemma stale_hover_idle_witness :
  ∃ w1 w2 el,
    @handle CodeUnit.collation (PointerEnter 0) Demo.loaded = Some w1
    ∧ @handle CodeUnit.collation (FilterClick Demo.rect "y") w1 = Some w2
    ∧ @reachable CodeUnit.collation w2
    ∧ hoveredNodeId w2 = Some "A"
    ∧ heap w2 !! graphData_nodes w2 = Some [Demo.B; Demo.C]
    ∧ ("A" ∉ id <$> [Demo.B; Demo.C])
    ∧ svg_nodes (svg w2) !! 0 = Some el ∧ node_datum el = Demo.B ∧ idleNode el
    ∧ node_opacity el = None ∧ image_scale el = None.
Proof.
  destruct (@handle CodeUnit.collation (PointerEnter 0) Demo.loaded) as [w1|] eqn:H1;
    [|vm_compute in H1; discriminate H1].
  destruct (@handle CodeUnit.collation (FilterClick Demo.rect "y") w1) as [w2|] eqn:H2;
    [|injection H1 as <-; vm_compute in H2; discriminate H2].
  assert (@reachable CodeUnit.collation w2) as Hreach.
  { eapply reachable_step; [|exact H2].
    eapply reachable_step; [|exact H1].
    eapply reachable_init. apply loaded_is_init. }
  assert (hoveredNodeId w2 = Some "A") as Hn.
  { injection H1 as <-. vm_compute in H2. injection H2 as <-. reflexivity. }
  assert (heap w2 !! graphData_nodes w2 = Some [Demo.B; Demo.C]) as Hnodes.
  { injection H1 as <-. vm_compute in H2. injection H2 as <-. reflexivity. }
  assert ("A" ∉ id <$> [Demo.B; Demo.C]) as Hstale by by_computation.
  destruct (@stale_hover_idle CodeUnit.collation w2 "A" _ Hreach Hn Hnodes Hstale)
    as [Hels _].
  destruct (Hels 0 Demo.B eq_refl) as (el & Hel & Hd & Hidle).
  exists w1, w2, el. split_and!; try assumption; try reflexivity.
  - injection H1 as <-. vm_compute in H2. injection H2 as <-.
    vm_compute in Hel. by injection Hel as <-.
  - injection H1 as <-. vm_compute in H2. injection H2 as <-.
    vm_compute in Hel. by injection Hel as <-.
Defined.

(** A call of [setHover] with the stale id, which no event makes, would
    dim: [A] is hovered, the filter [y] removes [A] from the graph and
    keeps the hovered id, and the highlight computed for that id would
    leave the node [B] at opacity 0.3. *)
Example setHover_stale_call_dims :
  ∃ w1 w2 w3 el,
    setHover (Some "A") Demo.loaded = Some w1
    ∧ @rebuildForFilter CodeUnit.collation Demo.rect "y" w1 = Some w2
    ∧ hoveredNodeId w2 = Some "A"
    ∧ heap w2 !! graphData_nodes w2 = Some [Demo.B; Demo.C]
    ∧ setHover (hoveredNodeId w2) w2 = Some w3
    ∧ svg_nodes (svg w3) !! 0 = Some el
    ∧ node_datum el = Demo.B
    ∧ node_opacity el = Some 0.3%Q.
Proof.
  eexists _, _, _, _. split_and!.
  - vm_compute. reflexivity.
  - vm_compute. reflexivity.
  - reflexivity.
  - vm_compute. reflexivity.
  - vm_compute. reflexivity.
  - vm_compute. reflexivity.
  - reflexivity.
  - reflexivity.
Qed.


Lemma sortNodesByTag_idempotent_witness :
  heap Demo.loaded !! fullNodes Demo.loaded = Some [Demo.A; Demo.B; Demo.C; Demo.D]
  ∧ ∃ r1 h1 r2 h2 ys,
      @sortNodesByTag CodeUnit.collation (fullNodes Demo.loaded) "y" (heap Demo.loaded)
      = Some (r1, h1)
      ∧ h1 !! r1 = Some ys
      ∧ @sortNodesByTag CodeUnit.collation r1 "y" h1 = Some (r2, h2)
      ∧ h2 !! r2 = Some ys.
Proof.
  assert (heap Demo.loaded !! fullNodes Demo.loaded
          = Some [Demo.A; Demo.B; Demo.C; Demo.D]) as Hfull
    by (vm_compute; reflexivity).
  split; [exact Hfull|].
  exact (@sortNodesByTag_idempotent CodeUnit.collation _ _ "y" _ Hfull).
Defined.

(** C9 as stated fails right after start-up: the simulation is at
    temperature 1 and the resize sets it to 0.3, which is lower. *)
Lemma onResize_cools_counterexample :
  ∃ s s',
    simulation Demo.loaded = Some s
    ∧ simulation (onResize Demo.rect Demo.loaded) = Some s'
    ∧ sim_alpha s = 1%Q
    ∧ sim_alpha s' = 0.3%Q
    ∧ (sim_alpha s' < sim_alpha s)%Q.
Proof. eexists _, _. split_and!; vm_compute; reflexivity. Qed.

(** Without a simulation a resize only sizes the drawing surface. *)
Example onResize_before_start :
  simulation (onResize Demo.rect boot) = None
  ∧ svg_width (svg (onResize Demo.rect boot)) = 1200%Q
  ∧ svg_height (svg (onResize Demo.rect boot)) = 800%Q.
Proof. split_and!; vm_compute; reflexivity. Qed.

Lemma empty_name_sorted_by_id_witness :
  name (loadEntry (DemoKeys.bare "q")) = ""
  ∧ name (loadEntry (DemoKeys.bare "b")) = ""
  ∧ sortKey (loadEntry (DemoKeys.bare "q")) = "q"
  ∧ @compareByName CodeUnit.collation
      (loadEntry (DemoKeys.bare "b")) (loadEntry (DemoKeys.bare "q"))
    = @localeCompare CodeUnit.collation "b" "q"
  ∧ ∃ ys,
      @sortNodesByTag CodeUnit.collation 0 "" [loadEntry <$> DemoKeys.raws]
      = Some (1, [loadEntry <$> DemoKeys.raws] ++ [ys])
      ∧ ys = loadEntry <$> [DemoKeys.bare "b"; DemoKeys.called "a" "m"; DemoKeys.bare "q"]
      ∧ (@localeCompare CodeUnit.collation "b" "q" ≤ 0)%Z.
Proof.
  destruct (@empty_name_sorted_by_id CodeUnit.collation)
    as (Hcmp & _ & Hkey & Hempty & Hsorted).
  assert (∀ i, name (loadEntry (DemoKeys.bare i)) = "") as Hbare.
  { intros i. apply Hempty; [by left | reflexivity | reflexivity]. }
  assert (∀ i, sortKey (loadEntry (DemoKeys.bare i)) = i) as Hid.
  { intros i. exact (proj1 (Hkey (loadEntry (DemoKeys.bare i))) (Hbare i)). }
  split; [apply Hbare|]. split; [apply Hbare|]. split; [apply Hid|]. split.
  { rewrite Hcmp. by rewrite !Hid. }
  destruct (Hsorted [loadEntry <$> DemoKeys.raws] 0 "" DemoKeys.raws eq_refl)
    as (ys & Hrun & _ & Hasc).
  assert (ys = loadEntry <$> [DemoKeys.bare "b"; DemoKeys.called "a" "m"; DemoKeys.bare "q"])
    as Hys.
  { vm_compute in Hrun. injection Hrun as <-. reflexivity. }
  exists ys. split; [exact Hrun|]. split; [exact Hys|].
  apply (Hasc 0 2 (loadEntry (DemoKeys.bare "b")) (loadEntry (DemoKeys.bare "q"))).
  - lia.
  - by rewrite Hys.
  - by rewrite Hys.
  - apply Hbare.
  - apply Hbare.
Defined.

(** Two items without a name or a tag are ordered by id, before or after
    a filter. *)
Example untagged_by_id :
  let u (i : string) := loadEntry {| raw_id := i; raw_image := Demo.img i;
                                     raw_source := None; raw_name := None;
                                     raw_themes := TagsMissing;
                                     raw_moods := TagsMissing |} in
  @sortNodesByTag CodeUnit.collation 0 "" [[u "q"; Demo.named; u "b"]]
  = Some (1, [[u "q"; Demo.named; u "b"]; [u "b"; Demo.named; u "q"]]).
Proof. vm_compute. reflexivity. Qed.

(** * Further properties of the code *)

(** ** Links as an undirected graph *)

Section LinkGraph.
Implicit Types (a b : Item) (xs ys nodes : list Item) (l : Link).

Lemma sharesTag_sym a b : sharesTag a b → sharesTag b a.
Proof. intros [(t & ? & ?)|(m & ? & ?)]; [left|right]; eauto. Qed.

(** X1.  Whether two items are connected does not depend on the order
    in which they are given to [nodesShareConnection]. *)
Theorem nodesShareConnection_sym a b :
  nodesShareConnection a b = nodesShareConnection b a.
Proof.
  destruct (nodesShareConnection a b) eqn:Hab, (nodesShareConnection b a) eqn:Hba;
    try done.
  - apply nodesShareConnection_spec, sharesTag_sym, nodesShareConnection_spec in Hab.
    congruence.
  - apply nodesShareConnection_spec, sharesTag_sym, nodesShareConnection_spec in Hba.
    congruence.
Qed.

Lemma elem_of_buildLinks xs l :
  l ∈ buildLinks xs ↔
  ∃ i j a b, i < j ∧ xs !! i = Some a ∧ xs !! j = Some b
             ∧ sharesTag a b ∧ l = linkOf a b.
Proof.
  rewrite buildLinks_omap, list_elem_of_omap. split.
  - intros ([i j] & Hin & Hl). apply elem_of_indexPairs in Hin.
    apply linkAt_Some in Hl as (a & b & Ha & Hb & Hs & ->).
    exists i, j, a, b. split_and!; try done. lia.
  - intros (i & j & a & b & Hij & Ha & Hb & Hs & ->).
    exists (i, j). split.
    + apply elem_of_indexPairs. apply lookup_lt_Some in Hb. lia.
    + apply linkAt_Some. by exists a, b.
Qed.

Lemma joins_linkOf_swap a b n x : joins (linkOf a b) n x → joins (linkOf b a) x n.
Proof. unfold joins. cbn. tauto. Qed.

Lemma joins_sym l n x : joins l n x → joins l x n.
Proof. unfold joins. tauto. Qed.

Lemma buildLinks_reorder_1 xs ys n x :
  xs ≡ₚ ys →
  (∃ l, l ∈ buildLinks xs ∧ joins l n x) → ∃ l, l ∈ buildLinks ys ∧ joins l n x.
Proof.
  intros Hperm (l & Hl & Hj).
  apply elem_of_buildLinks in Hl as (i & j & a & b & Hij & Ha & Hb & Hs & ->).
  apply Permutation_inj in Hperm as (_ & f & Hinj & Hf).
  rewrite Hf in Ha, Hb.
  assert (f i ≠ f j) as Hne by (intros Heq%Hinj; lia).
  destruct (decide (f i < f j)) as [Hlt|Hge].
  - exists (linkOf a b). split; [|done].
    apply elem_of_buildLinks. by exists (f i), (f j), a, b.
  - exists (linkOf b a). split.
    + apply elem_of_buildLinks. exists (f j), (f i), b, a.
      split_and!; try done; [lia | by apply sharesTag_sym].
    + by apply joins_sym, joins_linkOf_swap.
Qed.

(** X2.  Giving [buildLinks] the same items in another order changes the
    direction and the order of the links at most: two ids are joined by
    a link of one result exactly when they are joined by a link of the
    other. *)
Theorem buildLinks_reorder xs ys :
  xs ≡ₚ ys →
  ∀ n x, (∃ l, l ∈ buildLinks xs ∧ joins l n x)
         ↔ (∃ l, l ∈ buildLinks ys ∧ joins l n x).
Proof.
  intros Hperm n x. split; apply buildLinks_reorder_1; [done | by symmetry].
Qed.

Lemma length_indexPairs_from (n k : nat) :
  (k ≤ n)%nat →
  (2 * length (i ← seq (n - k) k; (λ j, (i, j)) <$> seq (S i) (n - S i))
   = k * (k - 1))%nat.
Proof.
  induction k as [|k IH]; intros Hk; [done|].
  replace (seq (n - S k) (S k)) with ((n - S k) :: seq (n - k) k).
  2:{ cbn [seq]. f_equal. f_equal. lia. }
  rewrite bind_cons, length_app, length_fmap, length_seq.
  specialize (IH ltac:(lia)). nia.
Qed.

Lemma length_indexPairs (n : nat) :
  (2 * length (indexPairs n) = n * (n - 1))%nat.
Proof.
  unfold indexPairs. pose proof (length_indexPairs_from n n (le_n n)) as Hlen.
  by rewrite Nat.sub_diag in Hlen.
Qed.

Lemma length_omap_le {A B} (f : A → option B) (l : list A) :
  (length (omap f l) ≤ length l)%nat.
Proof.
  induction l as [|x l IH]; [done|].
  change (omap f (x :: l)) with (match f x with
                                 | Some y => y :: omap f l
                                 | None => omap f l
                                 end).
  destruct (f x); cbn [length]; lia.
Qed.

Lemma length_omap_all {A B} (f : A → option B) (l : list A) :
  Forall (λ x, is_Some (f x)) l → length (omap f l) = length l.
Proof.
  induction 1 as [|x l [y Hy] _ IH]; [done|].
  change (omap f (x :: l)) with (match f x with
                                 | Some y => y :: omap f l
                                 | None => omap f l
                                 end).
  rewrite Hy. cbn [length]. lia.
Qed.

(** X3.  [buildLinks] makes at most one link for each of the
    [n (n - 1) / 2] pairs of positions, so none for an empty or
    one-element list, and exactly that many when every two items of the
    list share a theme or a mood. *)
Theorem buildLinks_size nodes :
  (2 * length (buildLinks nodes) ≤ length nodes * (length nodes - 1))%nat
  ∧ ((length nodes ≤ 1)%nat → buildLinks nodes = [])
  ∧ ((∀ a b, a ∈ nodes → b ∈ nodes → sharesTag a b) →
     (2 * length (buildLinks nodes) = length nodes * (length nodes - 1))%nat).
Proof.
  pose proof (length_indexPairs (length nodes)) as Hpairs.
  pose proof (length_omap_le (linkAt nodes) (indexPairs (length nodes))) as Hle.
  rewrite <- buildLinks_omap in Hle.
  split_and!.
  - lia.
  - intros Hsmall. apply length_zero_iff_nil. nia.
  - intros Hall. rewrite buildLinks_omap, length_omap_all; [done|].
    apply Forall_forall. intros [i j] Hin. apply elem_of_indexPairs in Hin.
    destruct (lookup_lt_is_Some_2 nodes i) as [a Ha]; [lia|].
    destruct (lookup_lt_is_Some_2 nodes j) as [b Hb]; [lia|].
    exists (linkOf a b). apply linkAt_Some. exists a, b.
    split_and!; try done.
    apply Hall; apply list_elem_of_lookup; eauto.
Qed.

End LinkGraph.

(** ** Hover: no memory, and the highlight of links *)

Section HoverMore.
Implicit Types (w : World) (nodes : list Item) (nodeId : option string)
  (n x : string) (l : Link).

Lemma hoverNode_overwrites (p q : option string) (c c' : gset string) el :
  hoverNode q c (hoverNode p c' el) = hoverNode q c el.
Proof. unfold hoverNode at 1 3. by rewrite hoverNode_datum. Qed.

Lemma hoverLink_overwrites (p q : option string) el :
  hoverLink q (hoverLink p el) = hoverLink q el.
Proof. done. Qed.

(** X4.  The highlight has no memory: calling [setHover] after an
    earlier call of [setHover] leaves the state that the later call
    alone would leave.  In particular a repeated call changes nothing,
    and a pointer-enter without the pointer-leave of the node before it
    ends as if the leave had happened. *)
Theorem setHover_last_wins w (p q : option string) w1 :
  setHover p w = Some w1 →
  setHover q w1 = setHover q w.
Proof.
  intros Hm.
  destruct (heap w !! graphData_nodes w) as [nodes|] eqn:Hnodes.
  2:{ unfold setHover in Hm. by rewrite Hnodes in Hm. }
  rewrite (setHover_run w nodes p Hnodes) in Hm. injection Hm as <-.
  rewrite (setHover_run w nodes q Hnodes).
  erewrite setHover_run by exact Hnodes.
  cbn [heap graphData_nodes graphData_links fullNodes simulation activeThemeFilter svg].
  do 2 f_equal. destruct (length nodes =? 0)%nat; [done|].
  cbn [svg_width svg_height svg_viewBox svg_links svg_nodes].
  f_equal; rewrite <- list_fmap_compose; apply list_fmap_ext; intros ? el _; simpl.
  - apply hoverLink_overwrites.
  - apply hoverNode_overwrites.
Qed.

Lemma hoverLink_touching n l el :
  n ≠ "" → link_datum el = l → sid l = n ∨ tid l = n →
  link_hovered (hoverLink (Some n) el) = true
  ∧ link_dimmed (hoverLink (Some n) el) = false
  ∧ link_stroke (hoverLink (Some n) el) = lineColorHover CONFIG.
Proof.
  intros Hn <- Hor. unfold hoverLink.
  cbn [link_datum link_hovered link_dimmed link_stroke].
  rewrite hovering_Some by done.
  assert (is_hovered_id (Some n) (sid (link_datum el))
          || is_hovered_id (Some n) (tid (link_datum el)) = true) as Hh.
  { apply orb_true_iff. rewrite !is_hovered_id_spec.
    destruct Hor as [<-|<-]; [by left|by right]. }
  rewrite Hh. split_and!; try done.
  apply orb_true_iff in Hh as [->| ->]; simpl; [done|]. apply andb_false_r.
Qed.

Lemma hoverLink_apart n l el :
  n ≠ "" → link_datum el = l → sid l ≠ n → tid l ≠ n →
  link_hovered (hoverLink (Some n) el) = false
  ∧ link_dimmed (hoverLink (Some n) el) = true
  ∧ link_stroke (hoverLink (Some n) el) = lineColor CONFIG.
Proof.
  intros Hn <- Hs Ht. unfold hoverLink.
  cbn [link_datum link_hovered link_dimmed link_stroke].
  rewrite hovering_Some by done.
  assert (is_hovered_id (Some n) (sid (link_datum el)) = false) as ->.
  { apply not_true_iff_false. rewrite is_hovered_id_spec. congruence. }
  assert (is_hovered_id (Some n) (tid (link_datum el)) = false) as ->.
  { apply not_true_iff_false. rewrite is_hovered_id_spec. congruence. }
  done.
Qed.

Lemma hoverLink_idle nodeId el :
  nodeId = None ∨ nodeId = Some "" →
  link_hovered (hoverLink nodeId el) = false
  ∧ link_dimmed (hoverLink nodeId el) = false
  ∧ link_stroke (hoverLink nodeId el) = lineColor CONFIG.
Proof.
  intros Hidle. unfold hoverLink.
  cbn [link_datum link_hovered link_dimmed link_stroke].
  by rewrite (hovering_false nodeId Hidle).
Qed.

(** X5.  In a state that shows a graph with at least one node,
    [setHover] restyles every link element.  For a hovered id [n] that
    is not empty, a link with [n] at one end is marked hovered, not
    dimmed, and drawn in the hover colour; any other link is marked
    dimmed, not hovered, and drawn in the neutral colour; and an id
    other than [n] is among the connected ids exactly when a link
    element marked hovered joins it to [n].  For [null] or the empty id
    every link is neither hovered nor dimmed and drawn in the neutral
    colour. *)
Theorem setHover_links w nodes nodeId :
  rendered w nodes → nodes ≠ [] →
  ∃ w',
    setHover nodeId w = Some w'
    ∧ (∀ k l, graphData_links w !! k = Some l →
         ∃ el, svg_links (svg w') !! k = Some el ∧ link_datum el = l
           ∧ (∀ n, nodeId = Some n → n ≠ "" →
                (sid l = n ∨ tid l = n →
                 link_hovered el = true ∧ link_dimmed el = false
                 ∧ link_stroke el = lineColorHover CONFIG)
                ∧ (sid l ≠ n → tid l ≠ n →
                   link_hovered el = false ∧ link_dimmed el = true
                   ∧ link_stroke el = lineColor CONFIG))
           ∧ (nodeId = None ∨ nodeId = Some "" →
                link_hovered el = false ∧ link_dimmed el = false
                ∧ link_stroke el = lineColor CONFIG))
    ∧ (∀ n x, nodeId = Some n → n ≠ "" →
         x ∈ connectedIds nodeId (graphData_links w)
         ↔ ∃ k el, svg_links (svg w') !! k = Some el
                   ∧ link_hovered el = true ∧ joins (link_datum el) n x).
Proof.
  intros Hr Hne.
  destruct (setHover_rendered w nodes nodeId Hr) as (w' & Hrun & Hr' & Hl & _ & Hsvg).
  destruct (Hsvg Hne) as [_ Hlinks].
  assert (∀ k l, graphData_links w !! k = Some l →
            ∃ el0, svg_links (svg w) !! k = Some el0 ∧ link_datum el0 = l
                   ∧ svg_links (svg w') !! k = Some (hoverLink nodeId el0)) as Hel.
  { intros k l Hk. destruct (rendered_link w nodes k l Hr Hk) as (el0 & Hel0 & Hd).
    exists el0. split_and!; try done. by rewrite Hlinks, list_lookup_fmap, Hel0. }
  exists w'. split_and!; [done| |].
  - intros k l Hk. destruct (Hel k l Hk) as (el0 & _ & Hd & Hk').
    exists (hoverLink nodeId el0). split_and!; [done|done| |].
    + intros n -> Hn. split.
      * by apply hoverLink_touching.
      * by apply hoverLink_apart.
    + apply hoverLink_idle.
  - intros n x -> Hn. rewrite connectedIds_spec by done. split.
    + intros (l & Hin & Hj). apply list_elem_of_lookup in Hin as [k Hk].
      destruct (Hel k l Hk) as (el0 & _ & Hd & Hk').
      exists k, (hoverLink (Some n) el0). split_and!; [done| |by rewrite <- Hd in Hj].
      apply (hoverLink_touching n l el0 Hn Hd).
      destruct Hj as [[? _]|[? _]]; [by left|by right].
    + intros (k & el & Hk & Hhov & Hj).
      destruct Hr' as (_ & _ & Hdata).
      assert (graphData_links w !! k = Some (link_datum el)) as Hk0.
      { rewrite <- Hl, <- Hdata, list_lookup_fmap, Hk. done. }
      exists (link_datum el). split; [|done]. apply list_elem_of_lookup. eauto.
Qed.

End HoverMore.

(** ** The theme filter and the store *)

Section FilterMore.
Implicit Types (h : list (list Item)) (xs ys : list Item) (a b : Item).

Lemma includes_filter theme xs :
  filter (λ n : Item, Js.includes (themes n) theme) xs
  = filter (λ a, theme ∈ themes a) xs.
Proof.
  apply list_filter_iff. intros a. by rewrite Is_true_true, JsFacts.includes_spec.
Qed.

(** X6.  [applyThemeFilter] never changes an array of the store.  With
    the empty theme it returns the very array it was given; with any
    other theme it returns a new array that holds, in their order, the
    items of the input that have the theme.  Filtering the result again
    with the same theme gives an array with the same elements. *)
Theorem applyThemeFilter_sublist h nodes theme xs :
  h !! nodes = Some xs →
  ∃ r h' ys,
    applyThemeFilter nodes theme h = Some (r, h')
    ∧ h' !! r = Some ys
    ∧ (∀ k, k < length h → h' !! k = h !! k)
    ∧ ys `sublist_of` xs
    ∧ (theme = "" → r = nodes ∧ h' = h)
    ∧ (theme ≠ "" → h !! r = None ∧ ys = filter (λ a, theme ∈ themes a) xs)
    ∧ (∃ r2 h2, applyThemeFilter r theme h' = Some (r2, h2) ∧ h2 !! r2 = Some ys).
Proof.
  intros Hxs. destruct (Js.truthy theme) eqn:Ht.
  - assert (theme ≠ "") as Hne by by apply JsFacts.truthy_spec.
    set (ys := filter (λ n : Item, Js.includes (themes n) theme) xs).
    assert ((h ++ [ys]) !! length h = Some ys) as Hys by by apply list_lookup_middle.
    exists (length h), (h ++ [ys]), ys. split_and!.
    + by rewrite (applyThemeFilter_run h nodes theme xs Hxs), Ht.
    + done.
    + intros k Hk. by apply lookup_app_l.
    + apply sublist_filter.
    + done.
    + intros _. split; [by apply lookup_ge_None | apply includes_filter].
    + eexists _, _. rewrite (applyThemeFilter_run _ _ theme ys Hys), Ht.
      split; [done|]. rewrite list_lookup_middle by done. f_equal.
      unfold ys. by apply list_filter_filter_l.
  - assert (theme = "") as -> by (by destruct theme).
    assert (applyThemeFilter nodes "" h = Some (nodes, h)) as Hrun
      by by rewrite (applyThemeFilter_run h nodes "" xs Hxs).
    exists nodes, h, xs. split_and!; try done.
    by exists nodes, h.
Qed.

End FilterMore.

(** ** The ordering policy: ties and buckets *)

Section OrderingMore.
Context `{Collation}.
Implicit Types (h : list (list Item)) (xs ys : list Item) (a b : Item).


Lemma StronglySorted_filter {A} (R : A → A → Prop) (P : A → Prop)
    `{!∀ x, Decision (P x)} (l : list A) :
  StronglySorted R l → StronglySorted R (filter P l).
Proof.
  induction 1 as [|x l Hl IH Hall]; [constructor|].
  rewrite filter_cons. case_decide; [|done].
  constructor; [done|].
  apply Forall_forall. intros y Hy. apply list_elem_of_filter in Hy as [_ Hy].
  rewrite Forall_forall in Hall. by apply Hall.
Qed.

Lemma StronglySorted_same_bucket tag (b : bool) xs :
  Forall (λ a, Js.includes (themes a) tag = b) xs →
  StronglySorted (notAfter compareByName) xs →
  StronglySorted (notAfter (compareByTag tag)) xs.
Proof.
  intros Hall Hs. induction Hs as [|x l Hl IH Hmin]; [constructor|].
  apply Forall_cons in Hall as [Hx Hall].
  constructor; [by apply IH|].
  rewrite Forall_forall in Hmin, Hall. apply Forall_forall. intros y Hy.
  specialize (Hmin y Hy). specialize (Hall y Hy).
  unfold notAfter, compareByTag, compareByName in *. rewrite Hx, Hall.
  by destruct b.
Qed.

Lemma sorted_by_name xs : StronglySorted (notAfter compareByName) (Js.sort compareByName xs).
Proof.
  apply Sorted_StronglySorted; [intros x y z; apply compareByName_trans|].
  apply sort_sorted, compareByName_total.
Qed.

Lemma filter_none {A} (P : A → Prop) `{!∀ x, Decision (P x)} (l : list A) :
  Forall (λ x, ¬ P x) l → filter P l = [].
Proof.
  induction 1 as [|x l Hx _ IH]; [done|]. rewrite filter_cons.
  by rewrite decide_False.
Qed.

Lemma compareByTag_tie tag a b :
  compareByTag tag a b = 0%Z ↔
  Js.includes (themes a) tag = Js.includes (themes b) tag ∧ compareByName a b = 0%Z.
Proof.
  unfold compareByTag, compareByName.
  destruct (Js.includes (themes a) tag), (Js.includes (themes b) tag); simpl;
    split; try done; try (by intros [? ?]); tauto.
Qed.

Lemma compareByName_antisym a b :
  Z.sgn (compareByName b a) = (- Z.sgn (compareByName a b))%Z.
Proof. unfold compareByName. apply localeCompare_antisym. Qed.

(** The ties of [z] in the sorted bucket of [z] are its ties in the
    input, and there are none in the other bucket. *)
Lemma bucket_ties tag z (b : bool) xs :
  filter (λ y, compareByTag tag z y = 0%Z)
    (Js.sort compareByName (filter (λ a, Js.includes (themes a) tag = b) xs))
  = if decide (Js.includes (themes z) tag = b)
    then filter (λ y, compareByTag tag z y = 0%Z) xs
    else [].
Proof.
  pose proof (sort_stable compareByName compareByName_antisym compareByName_trans
                (filter (λ a, Js.includes (themes a) tag = b) xs) z) as Hst.
  case_decide as Hz.
  - transitivity (filter (λ y, Js.includes (themes y) tag = b)
                    (filter (λ y, compareByName z y = 0%Z)
                       (Js.sort compareByName
                          (filter (λ a, Js.includes (themes a) tag = b) xs)))).
    + rewrite list_filter_filter. apply list_filter_iff. intros y.
      rewrite compareByTag_tie. intuition congruence.
    + rewrite Hst, !list_filter_filter. apply list_filter_iff. intros y.
      rewrite compareByTag_tie. intuition congruence.
  - apply filter_none. apply Forall_forall. intros y Hy.
    rewrite sort_perm in Hy. apply list_elem_of_filter in Hy as [Hy _].
    rewrite compareByTag_tie. intros [Heq _]. congruence.
Qed.

Lemma sorted_bucket_members tag (b : bool) xs :
  Forall (λ a, Js.includes (themes a) tag = b)
    (Js.sort compareByName (filter (λ a, Js.includes (themes a) tag = b) xs)).
Proof.
  apply Forall_forall. intros y Hy. rewrite sort_perm in Hy.
  by apply list_elem_of_filter in Hy as [? _].
Qed.

Lemma bucket_filter_true tag xs :
  filter (λ a, Js.includes (themes a) tag = true) xs = filter (λ a, tag ∈ themes a) xs.
Proof. apply list_filter_iff. intros a. apply JsFacts.includes_spec. Qed.

Lemma bucket_filter_false tag xs :
  filter (λ a, Js.includes (themes a) tag = false) xs = filter (λ a, tag ∉ themes a) xs.
Proof. apply list_filter_iff. intros a. apply JsFacts.includes_false. Qed.

(** X8.  With a tag, [sortNodesByTag] returns two buckets one after the
    other: the items that have the tag among their themes, ordered as
    the comparator without a tag orders them, and then the items that
    do not have it, ordered in the same way. *)
Theorem sortNodesByTag_buckets h nodes tag xs :
  tag ≠ "" →
  h !! nodes = Some xs →
  sortNodesByTag nodes tag h
  = Some (length h,
          h ++ [Js.sort compareByName (filter (λ a, tag ∈ themes a) xs)
                ++ Js.sort compareByName (filter (λ a, tag ∉ themes a) xs)]).
Proof.
  intros Htag Hxs.
  rewrite <- bucket_filter_true, <- bucket_filter_false.
  set (l1 := Js.sort compareByName (filter (λ a, Js.includes (themes a) tag = true) xs)).
  set (l2 := Js.sort compareByName (filter (λ a, Js.includes (themes a) tag = false) xs)).
  assert (tagComparator tag = compareByTag tag) as Hcmp.
  { unfold tagComparator. apply JsFacts.truthy_spec in Htag. by rewrite Htag. }
  apply (sortNodesByTag_determined h nodes tag xs (l1 ++ l2) Hxs); rewrite ?Hcmp.
  - apply StronglySorted_Sorted, StronglySorted_app. split_and!.
    + intros x1 x2 Hx1 Hx2.
      pose proof (sorted_bucket_members tag true xs) as H1.
      pose proof (sorted_bucket_members tag false xs) as H2.
      rewrite Forall_forall in H1, H2.
      unfold notAfter, compareByTag. rewrite (H1 x1 Hx1), (H2 x2 Hx2). done.
    + apply (StronglySorted_same_bucket tag true);
        [apply sorted_bucket_members | apply sorted_by_name].
    + apply (StronglySorted_same_bucket tag false);
        [apply sorted_bucket_members | apply sorted_by_name].
  - unfold l1, l2. rewrite !sort_perm.
    assert (filter (λ a, Js.includes (themes a) tag = false) xs
            = filter (λ a, ¬ Js.includes (themes a) tag = true) xs) as ->.
    { apply list_filter_iff. intros a. by destruct (Js.includes (themes a) tag). }
    apply filter_app_complement.
  - intros z. rewrite filter_app. unfold l1, l2. rewrite !bucket_ties.
    destruct (Js.includes (themes z) tag); repeat case_decide; try done.
    by rewrite app_nil_r.
Qed.

End OrderingMore.

(** ** The states after start-up *)

Section Consistency.
Context `{Collation}.
Implicit Types (w : World) (full nodes : list Item).

Lemma resolved_joins ns ns' resolved :
  (∀ i, i ∈ id <$> ns → i ∈ id <$> ns') →
  resolveLinks ns' (buildLinks ns) = Some resolved →
  linksOfNodes resolved ns.
Proof.
  intros Hsub Hres n x.
  destruct (resolveLinks_buildLinks ns ns' Hsub) as (resolved' & Hres' & Hall).
  rewrite Hres in Hres'. injection Hres' as <-.
  unfold joins. split; intros (l & Hin & Hj); apply list_elem_of_lookup in Hin as [k Hk].
  - destruct (Forall2_lookup_r _ _ _ _ _ Hall Hk) as (l0 & Hl0 & Hs & Ht & _).
    exists l0. split; [apply list_elem_of_lookup; eauto|]. by rewrite <- Hs, <- Ht.
  - destruct (Forall2_lookup_l _ _ _ _ _ Hall Hk) as (r & Hr & Hs & Ht & _).
    exists r. split; [apply list_elem_of_lookup; eauto|]. by rewrite Hs, Ht.
Qed.

Lemma linksOfNodes_reorder links xs ys :
  xs ≡ₚ ys → linksOfNodes links xs → linksOfNodes links ys.
Proof.
  intros Hperm Hl n x. rewrite (Hl n x).
  split; apply buildLinks_reorder_1; [done | by symmetry].
Qed.

(** On a sorted full array the sort of [rebuildForFilter] moves
    nothing. *)
Lemma sort_selected theme full :
  Sorted (notAfter compareByName) full →
  Js.sort (tagComparator theme) (selected theme full) = selected theme full.
Proof.
  intros Hs. apply sort_of_sorted. unfold tagComparator, selected.
  destruct (Js.truthy theme); [|done].
  apply StronglySorted_Sorted, (StronglySorted_same_bucket theme true).
  - apply Forall_forall. intros a Ha. apply list_elem_of_filter in Ha as [Ha _].
    by apply Is_true_true.
  - apply StronglySorted_filter, Sorted_StronglySorted; [|done].
    intros x y z. apply compareByName_trans.
Qed.

Lemma init_consistent rect raw w :
  init rect raw boot = Some w → consistent w.
Proof.
  intros Hinit.
  destruct (init_run rect raw boot) as (resolved & Hres & Hrun).
  rewrite Hinit in Hrun. injection Hrun as ->.
  set (xs := loadEntry <$> default [] raw) in *.
  set (sorted := Js.sort (tagComparator "") xs) in *.
  assert (∀ i, i ∈ id <$> xs → i ∈ id <$> sorted) as Hsub.
  { intros i. unfold sorted. by rewrite sort_perm. }
  eexists sorted, sorted, _.
  cbn [heap graphData_nodes graphData_links fullNodes simulation activeThemeFilter svg].
  split_and!; try done.
  - split; [done | apply newSvg_data].
  - by eapply resolved_within.
  - apply sort_sorted, tagComparator_total.
  - apply (linksOfNodes_reorder resolved xs); [by unfold sorted; rewrite sort_perm|].
    by eapply resolved_joins.
Qed.

Lemma setHover_consistent nodeId w w' :
  consistent w → setHover nodeId w = Some w' → consistent w'.
Proof.
  intros (nodes & full & s & Hr & Hl & Hfull & Hs & Hnodes & Hlinks & Hsim & Hsn & Hsl) Hrun.
  destruct (setHover_rendered w nodes nodeId Hr) as (w1 & Hrun1 & Hr1 & Hl1 & _).
  rewrite Hrun in Hrun1. injection Hrun1 as <-.
  rewrite (setHover_run w nodes nodeId) in Hrun by apply Hr.
  injection Hrun as <-.
  exists nodes, full, s. by split_and!.
Qed.

Lemma rebuildForFilter_consistent rect theme w w' :
  consistent w → rebuildForFilter rect theme w = Some w' → consistent w'.
Proof.
  intros (nodes & full & s & _ & _ & Hfull & Hs & _) Hrun.
  destruct (rebuildForFilter_rendered rect theme w full Hfull)
    as (w1 & Hrun1 & Hr1 & Hl1 & Hfull1 & _).
  rewrite Hrun in Hrun1. injection Hrun1 as <-.
  destruct (rebuildForFilter_run rect theme w full Hfull) as (resolved & Hres & Hrun2).
  rewrite (sort_selected theme full Hs) in Hr1, Hl1, Hres, Hrun2.
  rewrite Hrun in Hrun2. injection Hrun2 as Hw'.
  eexists (selected theme full), full, _. split_and!; try done.
  - by rewrite Hw'.
  - rewrite Hw'. cbn [graphData_links]. by eapply resolved_joins.
  - by rewrite Hw'.
  - by rewrite Hw'.
  - by rewrite Hw'.
Qed.

Lemma onResize_consistent rect w : consistent w → consistent (onResize rect w).
Proof.
  intros (nodes & full & s & Hr & Hl & Hfull & Hs & Hnodes & Hlinks & Hsim & Hsn & Hsl).
  destruct (onResize_rendered rect w nodes Hr Hl) as [Hr' Hl'].
  exists nodes, full.
  unfold onResize in *. cbn [getDimensions] in *.
  cbn [heap graphData_nodes graphData_links fullNodes simulation activeThemeFilter svg]
    in *.
  rewrite Hsim. eexists. split_and!; try done.
Qed.

Lemma reachable_consistent w : reachable w → consistent w.
Proof.
  induction 1 as [rect raw w Hinit | e w w' _ IH Hstep].
  - by eapply init_consistent.
  - destruct e as [k| |rect theme|rect]; simpl in Hstep.
    + destruct (svg_nodes (svg w) !! k) as [el|]; [|done]. by eapply setHover_consistent.
    + by eapply setHover_consistent.
    + by eapply rebuildForFilter_consistent.
    + injection Hstep as <-. by apply onResize_consistent.
Qed.

End Consistency.

(** ** Filter changes, events and the invariant *)

Section EventsMore.
Context `{Collation}.
Implicit Types (w : World) (full nodes : list Item).

(** X9.  Filters do not add up: what a filter change leaves as nodes,
    links and drawing is made from the full item array and the new
    theme alone, whatever filter was active before. *)
Theorem rebuildForFilter_no_memory rect1 rect2 theme1 theme2 w full :
  heap w !! fullNodes w = Some full →
  ∃ w1 w2 w2',
    rebuildForFilter rect1 theme1 w = Some w1
    ∧ rebuildForFilter rect2 theme2 w1 = Some w2
    ∧ rebuildForFilter rect2 theme2 w = Some w2'
    ∧ heap w2 !! graphData_nodes w2 = heap w2' !! graphData_nodes w2'
    ∧ graphData_links w2 = graphData_links w2'
    ∧ svg w2 = svg w2'
    ∧ activeThemeFilter w2 = theme2
    ∧ heap w2 !! fullNodes w2 = Some full.
Proof.
  intros Hfull.
  destruct (rebuildForFilter_rendered rect1 theme1 w full Hfull)
    as (w1 & Hrun1 & _ & _ & Hfull1 & _).
  destruct (rebuildForFilter_rendered rect2 theme2 w1 full Hfull1)
    as (w2 & Hrun2 & _ & _ & Hfull2 & _).
  destruct (rebuildForFilter_run rect2 theme2 w1 full Hfull1) as (r & Hr & Hrun2').
  destruct (rebuildForFilter_run rect2 theme2 w full Hfull) as (r' & Hr' & Hrun').
  rewrite Hr in Hr'. injection Hr' as <-.
  eexists w1, w2, _. split_and!; [done|done|exact Hrun'|..]; try done;
    rewrite Hrun2 in Hrun2'; injection Hrun2' as ->;
    cbn [heap graphData_nodes graphData_links svg activeThemeFilter]; try done.
  by rewrite !list_lookup_middle.
Qed.

Lemma setHover_heap nodeId w w' :
  setHover nodeId w = Some w' →
  heap w' = heap w ∧ fullNodes w' = fullNodes w.
Proof.
  unfold setHover. destruct (heap w !! graphData_nodes w); [|done].
  simpl. by intros [= <-].
Qed.

Lemma rebuildForFilter_needs_full rect theme w :
  heap w !! fullNodes w = None → rebuildForFilter rect theme w = None.
Proof.
  intros Hnone. unfold rebuildForFilter, applyThemeFilter, sortNodesByTag, Arr.read,
    mbind, M_bind, mret, M_ret.
  destruct (Js.truthy theme); simpl; by rewrite Hnone.
Qed.

(** X10.  No event replaces the full item array or changes an array
    that is in the store: a handled event leaves [fullNodes] at the same
    location and every existing location with the elements it had; the
    store only grows. *)
Theorem events_keep_arrays e w w' :
  handle e w = Some w' →
  fullNodes w' = fullNodes w
  ∧ (length (heap w) ≤ length (heap w'))%nat
  ∧ ∀ r, r < length (heap w) → heap w' !! r = heap w !! r.
Proof.
  intros Hstep.
  assert (∀ nodeId, setHover nodeId w = Some w' →
            fullNodes w' = fullNodes w
            ∧ (length (heap w) ≤ length (heap w'))%nat
            ∧ ∀ r, r < length (heap w) → heap w' !! r = heap w !! r) as Hhover.
  { intros nodeId [-> ->]%setHover_heap. done. }
  destruct e as [k| |rect theme|rect]; simpl in Hstep.
  - destruct (svg_nodes (svg w) !! k) as [el|]; [|done]. by eapply Hhover.
  - by eapply Hhover.
  - destruct (heap w !! fullNodes w) as [full|] eqn:Hfull.
    + destruct (rebuildForFilter_run rect theme w full Hfull) as (r & _ & Hrun).
      rewrite Hstep in Hrun. injection Hrun as ->.
      cbn [heap fullNodes]. unfold filteredHeap.
      split_and!; [done|..]; destruct (Js.truthy theme);
        rewrite ?length_app; cbn [length]; try lia;
        intros k Hk; rewrite ?lookup_app_l; rewrite ?length_app; cbn [length];
        try done; lia.
    + by rewrite rebuildForFilter_needs_full in Hstep.
  - by injection Hstep as <-.
Qed.

(** X11.  After start-up nothing fails: every reachable state has a
    simulation, which runs on the current node array and the current
    links, and handles every filter click, every resize, every
    pointer-leave and the pointer-enter of every node element it
    shows. *)
Theorem reachable_safe w :
  reachable w →
  (∃ s, simulation w = Some s
        ∧ sim_nodes s = graphData_nodes w ∧ sim_links s = graphData_links w)
  ∧ (∀ e, (∀ k, e = PointerEnter k → k < length (svg_nodes (svg w))) →
          ∃ w', handle e w = Some w' ∧ reachable w').
Proof.
  intros Hreach. split.
  - destruct (reachable_consistent w Hreach) as (_ & _ & s & _ & _ & _ & _ & _ & _ & Hs).
    by exists s.
  - intros e Hk. destruct (reachable_handles w e Hreach) as [w' Hw'].
    + intros k ->. apply lookup_lt_is_Some_2. by apply Hk.
    + exists w'. split; [done|]. by eapply reachable_step.
Qed.

(** X12.  In every reachable state the current nodes are the items of
    the full item array that pass the active filter, in the order they
    have in the full array, and the full array is in the order of the
    comparator without a tag: a filter change never reorders. *)
Theorem reachable_nodes_in_full_order w :
  reachable w →
  ∃ nodes full,
    heap w !! graphData_nodes w = Some nodes
    ∧ heap w !! fullNodes w = Some full
    ∧ nodes = selected (activeThemeFilter w) full
    ∧ nodes `sublist_of` full
    ∧ (activeThemeFilter w = "" → nodes = full)
    ∧ (activeThemeFilter w ≠ "" →
       nodes = filter (λ a, activeThemeFilter w ∈ themes a) full)
    ∧ ascending (λ a b, (localeCompare (sortKey a) (sortKey b) ≤ 0)%Z) full.
Proof.
  intros (nodes & full & _ & Hr & _ & Hfull & Hs & Hnodes & _)%reachable_consistent.
  exists nodes, full. split_and!; try done.
  - apply Hr.
  - rewrite Hnodes. unfold selected. destruct (Js.truthy _); [apply sublist_filter|done].
  - intros Hempty. by rewrite Hnodes, Hempty.
  - intros Hne. rewrite Hnodes. by apply selected_tag.
  - eapply ascending_impl; [|apply (Sorted_ascending compareByName)];
      [|apply compareByName_trans|done].
    intros a b. unfold notAfter. by rewrite compareByName_key.
Qed.

Lemma joined_by_buildLinks nodes n x :
  (∃ l, l ∈ buildLinks nodes ∧ joins l n x)
  ↔ ∃ i j a b, i ≠ j ∧ nodes !! i = Some a ∧ nodes !! j = Some b
               ∧ sharesTag a b ∧ id a = n ∧ id b = x.
Proof.
  split.
  - intros (l & Hl & Hj).
    apply elem_of_buildLinks in Hl as (i & j & a & b & Hij & Ha & Hb & Hs & ->).
    destruct Hj as [[Hn Hx]|[Hn Hx]]; cbn in Hn, Hx.
    + exists i, j, a, b. split_and!; try done. lia.
    + exists j, i, b, a. split_and!; try done; [lia | by apply sharesTag_sym].
  - intros (i & j & a & b & Hij & Ha & Hb & Hs & <- & <-).
    destruct (decide (i < j)).
    + exists (linkOf a b). split; [|by left].
      apply elem_of_buildLinks. by exists i, j, a, b.
    + exists (linkOf b a). split; [|by right].
      apply elem_of_buildLinks. exists j, i, b, a.
      split_and!; try done; [lia | by apply sharesTag_sym].
Qed.

(** X13.  In every reachable state the current links are the links of
    the current nodes: two ids are joined by a current link exactly
    when two different current nodes with these ids share a theme or a
    mood.  This holds although start-up builds the links from the load
    order and the graph from the sorted order. *)
Theorem reachable_links_of_nodes w :
  reachable w →
  ∃ nodes,
    heap w !! graphData_nodes w = Some nodes
    ∧ ∀ n x, (∃ l, l ∈ graphData_links w ∧ joins l n x)
             ↔ ∃ i j a b, i ≠ j ∧ nodes !! i = Some a ∧ nodes !! j = Some b
                          ∧ sharesTag a b ∧ id a = n ∧ id b = x.
Proof.
  intros (nodes & full & _ & Hr & _ & _ & _ & _ & Hl & _)%reachable_consistent.
  exists nodes. split; [apply Hr|].
  intros n x. rewrite (Hl n x). apply joined_by_buildLinks.
Qed.

(** X14.  A filter that no item of the full array has leaves an empty
    graph: no nodes, no links, no elements.  In that state [setHover]
    records the hovered id and leaves the drawing as it is. *)
Theorem filter_without_match rect theme w full :
  heap w !! fullNodes w = Some full →
  theme ≠ "" →
  (∀ a, a ∈ full → theme ∉ themes a) →
  ∃ w',
    rebuildForFilter rect theme w = Some w'
    ∧ heap w' !! graphData_nodes w' = Some []
    ∧ graphData_links w' = []
    ∧ svg_nodes (svg w') = [] ∧ svg_links (svg w') = []
    ∧ ∀ nodeId, ∃ w'', setHover nodeId w' = Some w''
                       ∧ svg w'' = svg w' ∧ hoveredNodeId w'' = nodeId.
Proof.
  intros Hfull Htheme Hnone.
  destruct (rebuildForFilter_run rect theme w full Hfull) as (resolved & Hres & Hrun).
  assert (selected theme full = []) as Hsel.
  { rewrite selected_tag by done. apply filter_none, Forall_forall. done. }
  rewrite Hsel in Hres, Hrun. cbn in Hres. injection Hres as <-.
  eexists. split; [exact Hrun|].
  cbn [heap graphData_nodes graphData_links svg].
  assert (∀ {A} (l : list (list A)), (l ++ [[]]) !! length l = Some []) as Hmid
    by (intros; by apply list_lookup_middle).
  split_and!; try done.
  intros nodeId. eexists. split.
  - apply (setHover_run _ []). cbn [heap graphData_nodes]. apply Hmid.
  - done.
Qed.

End EventsMore.

(** ** Dimensions, resize and loaded names *)

(** X15.  [getDimensions] never gives a zero width or a height under 800:
    a zero width of the wrapper becomes 1200 and any other width is kept;
    the height is the larger of the wrapper's height and 800. *)
Theorem getDimensions_bounds rect :
  ¬ ((getDimensions rect).1 == 0)%Q
  ∧ (800 <= (getDimensions rect).2)%Q
  ∧ (rect_height rect <= (getDimensions rect).2)%Q
  ∧ ((rect_width rect == 0)%Q → (getDimensions rect).1 = 1200%Q)
  ∧ (¬ (rect_width rect == 0)%Q → (getDimensions rect).1 = rect_width rect)
  ∧ ((800 <= rect_height rect)%Q → ((getDimensions rect).2 == rect_height rect)%Q)
  ∧ ((rect_height rect <= 800)%Q → ((getDimensions rect).2 == 800)%Q).
Proof.
  unfold getDimensions. cbn [fst snd].
  destruct (Qeq_bool (rect_width rect) 0) eqn:Hw.
  - apply Qeq_bool_iff in Hw. split_and!; try done.
    + apply Q.le_max_r.
    + apply Q.le_max_l.
    + by apply Q.max_l.
    + by apply Q.max_r.
  - apply Qeq_bool_neq in Hw. split_and!; try done.
    + apply Q.le_max_r.
    + apply Q.le_max_l.
    + by apply Q.max_l.
    + by apply Q.max_r.
Qed.

(** X16.  Of two resizes the later one decides: resizing twice leaves the
    state that the second resize alone leaves, so a repeated resize
    changes nothing.  A resize and a hover do not disturb each other:
    they give the same state in either order. *)
Theorem onResize_last_wins rect1 rect2 nodeId w :
  onResize rect2 (onResize rect1 w) = onResize rect2 w
  ∧ setHover nodeId (onResize rect1 w) = onResize rect1 <$> setHover nodeId w.
Proof.
  split.
  - unfold onResize. cbn [getDimensions]. simpl. by destruct (simulation w).
  - unfold setHover, onResize. cbn [getDimensions]. simpl.
    destruct (heap w !! graphData_nodes w) as [nodes|]; [|done]. simpl.
    by destruct (length nodes =? 0)%nat.
Qed.

Section LoadedNames.
Implicit Types (d : RawEntry).

(** X17.  A loaded item has the empty name exactly when its entry has no
    name, or the empty one, and its themes and moods give [join]
    nothing or a single empty string; title and ordering of such an
    item fall back to its id, and every other loaded item is ordered by
    its name. *)
Theorem loadEntry_name_empty d :
  (name (loadEntry d) = "" ↔
     (raw_name d = None ∨ raw_name d = Some "")
     ∧ (concat_arg (raw_themes d) ++ concat_arg (raw_moods d) = []
        ∨ concat_arg (raw_themes d) ++ concat_arg (raw_moods d) = [""]))
  ∧ (name (loadEntry d) = "" → sortKey (loadEntry d) = raw_id d)
  ∧ (name (loadEntry d) ≠ "" → sortKey (loadEntry d) = name (loadEntry d)).
Proof.
  split_and!.
  - cbn [name loadEntry]. split.
    + intros Hname. unfold Js.or_else in Hname.
      destruct (raw_name d) as [[|c s]|] eqn:Hn; simpl in Hname; try done.
      * split; [by right|]. by apply join_empty.
      * split; [by left|]. by apply join_empty.
    + intros [[-> | ->] [-> | ->]]; done.
  - intros Hname. unfold sortKey. by rewrite decide_True.
  - intros Hname. unfold sortKey. by rewrite decide_False.
Qed.

End LoadedNames.

(** ** The page: start-up, parallax and the filter buttons *)

Section PageFacts.
Context `{Collation}.
Implicit Types (p : Page) (w : World).


(** The scroll handler does nothing while the drawing has no
    container; otherwise it sets the translation of the container to
    the scroll offset times [parallaxFactor], whatever it was, and
    touches neither the graph state nor the buttons.  Of two scroll
    events the later one decides. *)
Lemma onScroll_facts y1 y2 p :
  page_world (onScroll y1 p) = page_world p
  ∧ page_buttons (onScroll y1 p) = page_buttons p
  ∧ page_error (onScroll y1 p) = page_error p
  ∧ (page_container p = None → onScroll y1 p = p)
  ∧ (page_container p ≠ None →
     page_container (onScroll y1 p)
     = Some (Some (printed (drift y1))))
  ∧ onScroll y2 (onScroll y1 p) = onScroll y2 p.
Proof.
  unfold onScroll. destruct (page_container p) as [t|] eqn:Hc; cbn; rewrite ?Hc;
    split_and!; try done.
Qed.

(** X19.  A filter change makes a new container, so it drops the
    parallax translation until the next scroll event: the page after a
    filter change is the same whether or not a scroll event came before
    it, its container has no [transform], and the next scroll event
    sets the translation to the printed binary64 product of its scroll
    offset and [parallaxFactor]. *)
Theorem rebuildPage_drops_parallax rect theme y p p' :
  rebuildPage rect theme (onScroll y p) = Some p' →
  rebuildPage rect theme p = Some p'
  ∧ page_container p' = Some None
  ∧ ∀ y', page_container (onScroll y' p')
          = Some (Some (printed (drift y'))).
Proof.
  unfold rebuildPage, onScroll.
  destruct (page_container p) as [t|]; cbn;
    destruct (rebuildForFilter rect theme (page_world p)) as [w'|]; cbn;
    try done; by intros [= <-].
Qed.

Lemma mark_button (bs : list Button) k btn i b :
  bs !! k = Some btn → bs !! i = Some b →
  ∃ b', <[k := {| data_theme := data_theme btn; btn_active := true |}]>
          ((λ b, {| data_theme := data_theme b; btn_active := false |}) <$> bs) !! i
        = Some b'
        ∧ data_theme b' = data_theme b ∧ (btn_active b' = true ↔ i = k).
Proof.
  intros Hk Hi. destruct (decide (i = k)) as [->|Hne].
  - rewrite list_lookup_insert_eq.
    + eexists. split; [done|]. cbn. split; [congruence|done].
    + rewrite length_fmap. by eapply lookup_lt_Some.
  - rewrite list_lookup_insert_ne by done. rewrite list_lookup_fmap, Hi. cbn.
    eexists. split; [done|]. cbn. split; [done|]. split; [done|congruence].
Qed.

(** X20.  A click on a filter button of a page whose full item array
    exists does not fail.  Afterwards the clicked button is the only
    active one, no button has changed its theme, the active filter is
    the theme of the clicked button, or no filter when the button has
    no theme, the graph is the one [rebuildForFilter] makes for it, and
    the new container has no translation. *)
Theorem clickFilter_effect rect k p btn full :
  page_buttons p !! k = Some btn →
  heap (page_world p) !! fullNodes (page_world p) = Some full →
  ∃ p',
    clickFilter rect k p = Some p'
    ∧ rebuildForFilter rect (buttonTheme btn) (page_world p) = Some (page_world p')
    ∧ activeThemeFilter (page_world p') = buttonTheme btn
    ∧ (data_theme btn = None ∨ data_theme btn = Some "" → buttonTheme btn = "")
    ∧ (∀ t, data_theme btn = Some t → buttonTheme btn = t)
    ∧ page_container p' = Some None
    ∧ page_error p' = page_error p
    ∧ length (page_buttons p') = length (page_buttons p)
    ∧ ∀ i b, page_buttons p !! i = Some b →
        ∃ b', page_buttons p' !! i = Some b'
              ∧ data_theme b' = data_theme b ∧ (btn_active b' = true ↔ i = k).
Proof.
  intros Hk Hfull.
  destruct (rebuildForFilter_run rect (buttonTheme btn) (page_world p) full Hfull)
    as (resolved & _ & Hrun).
  eexists. split.
  { unfold clickFilter, rebuildPage. rewrite Hk. cbn. rewrite Hrun. cbn. done. }
  cbn [page_world page_container page_buttons page_error activeThemeFilter].
  split_and!; try done.
  - intros [Hn|Hn]; unfold buttonTheme; by rewrite Hn.
  - intros t Hn. unfold buttonTheme. rewrite Hn. by destruct t.
  - by rewrite length_insert, length_fmap.
  - intros i b Hi. by apply mark_button.
Qed.

End PageFacts.

(** ** Links of a filtered list *)

Section InducedLinks.
Implicit Types (a b : Item) (xs ys : list Item) (l : Link).

Lemma sublist_indices {A} (ys xs : list A) :
  ys `sublist_of` xs →
  ∃ f : nat → nat,
    (∀ i j, i < j → f i < f j)
    ∧ ∀ i, i < length ys → ys !! i = xs !! f i.
Proof.
  induction 1 as [|x l1 l2 _ (f & Hmono & Hf)|x l1 l2 _ (f & Hmono & Hf)].
  - exists (λ i, i). split; [done|]. intros i Hi. simpl in Hi. lia.
  - exists (λ i, match i with 0 => 0 | S i' => S (f i') end). split.
    + intros [|i] [|j] Hij; try lia. specialize (Hmono i j). lia.
    + intros [|i] Hi; [done|]. simpl in *. apply Hf. lia.
  - exists (λ i, S (f i)). split.
    + intros i j Hij. specialize (Hmono i j). lia.
    + intros i Hi. simpl. by apply Hf.
Qed.

(** X21.  Filtering never makes a link: the links [buildLinks] makes
    for a list that keeps some items of another list, in their order,
    are links it makes for the other list, with the same direction.
    When the ids of the other list are pairwise distinct, the converse
    holds for the links whose two ends are ids of kept items, so the
    links of the filtered list are exactly the links of the full list
    between kept items. *)
Theorem buildLinks_sublist ys xs :
  ys `sublist_of` xs →
  (∀ l, l ∈ buildLinks ys → l ∈ buildLinks xs)
  ∧ (NoDup (id <$> xs) →
     ∀ l, l ∈ buildLinks xs → sid l ∈ id <$> ys → tid l ∈ id <$> ys →
          l ∈ buildLinks ys).
Proof.
  intros Hsub. destruct (sublist_indices ys xs Hsub) as (f & Hmono & Hf).
  split.
  - intros l (i & j & a & b & Hij & Ha & Hb & Hs & ->)%elem_of_buildLinks.
    apply elem_of_buildLinks. exists (f i), (f j), a, b.
    pose proof (lookup_lt_Some _ _ _ Ha). pose proof (lookup_lt_Some _ _ _ Hb).
    split_and!; try done; [by apply Hmono | by rewrite <- Hf | by rewrite <- Hf].
  - intros Hnd l (i & j & a & b & Hij & Ha & Hb & Hs & ->)%elem_of_buildLinks Hsid Htid.
    cbn in Hsid, Htid.
    apply list_elem_of_fmap in Hsid as (a' & Hida & (i' & Hi')%list_elem_of_lookup).
    apply list_elem_of_fmap in Htid as (b' & Hidb & (j' & Hj')%list_elem_of_lookup).
    pose proof (lookup_lt_Some _ _ _ Hi') as Hli.
    pose proof (lookup_lt_Some _ _ _ Hj') as Hlj.
    assert (f i' = i) as Hfi.
    { eapply (unique_id_index xs); [done| |exact Ha|by symmetry]. by rewrite <- Hf. }
    assert (f j' = j) as Hfj.
    { eapply (unique_id_index xs); [done| |exact Hb|by symmetry]. by rewrite <- Hf. }
    assert (a' = a) as -> by (rewrite Hf, Hfi, Ha in Hi'; congruence).
    assert (b' = b) as -> by (rewrite Hf, Hfj, Hb in Hj'; congruence).
    apply elem_of_buildLinks. exists i', j', a, b. split_and!; try done.
    destruct (decide (i' < j')) as [|Hge]; [done|].
    destruct (decide (i' = j')) as [->|Hne]; [lia|].
    specialize (Hmono j' i'). lia.
Qed.

End InducedLinks.

(** ** The further properties on concrete data *)

Example loaded_nodes :
  heap Demo.loaded !! graphData_nodes Demo.loaded = Some [Demo.A; Demo.B; Demo.C; Demo.D].
Proof. vm_compute. reflexivity. Qed.

Example loaded_reachable : @reachable CodeUnit.collation Demo.loaded.
Proof. eapply reachable_init. apply loaded_is_init. Qed.

Lemma buildLinks_reorder_witness :
  [Demo.A; Demo.B] ≡ₚ [Demo.B; Demo.A]
  ∧ ((∃ l, l ∈ buildLinks [Demo.A; Demo.B] ∧ joins l "A" "B")
     ↔ (∃ l, l ∈ buildLinks [Demo.B; Demo.A] ∧ joins l "A" "B")).
Proof.
  assert ([Demo.A; Demo.B] ≡ₚ [Demo.B; Demo.A]) as Hperm by apply Permutation_swap.
  split; [exact Hperm|]. exact (buildLinks_reorder _ _ Hperm "A" "B").
Defined.

Lemma setHover_last_wins_witness :
  ∃ w1, setHover (Some "A") Demo.loaded = Some w1
        ∧ setHover (Some "B") w1 = setHover (Some "B") Demo.loaded.
Proof.
  destruct (setHover (Some "A") Demo.loaded) as [w1|] eqn:H1.
  - exists w1. split; [reflexivity|].
    exact (setHover_last_wins Demo.loaded (Some "A") (Some "B") w1 H1).
  - vm_compute in H1. discriminate H1.
Defined.

Lemma setHover_links_witness :
  rendered Demo.loaded [Demo.A; Demo.B; Demo.C; Demo.D]
  ∧ [Demo.A; Demo.B; Demo.C; Demo.D] ≠ []
  ∧ ∃ w', setHover (Some "B") Demo.loaded = Some w'.
Proof.
  assert (rendered Demo.loaded [Demo.A; Demo.B; Demo.C; Demo.D]) as Hr.
  { unfold rendered. split_and!; vm_compute; reflexivity. }
  assert ([Demo.A; Demo.B; Demo.C; Demo.D] ≠ []) as Hne by discriminate.
  split; [exact Hr|]. split; [exact Hne|].
  destruct (setHover_links Demo.loaded _ (Some "B") Hr Hne) as (w' & Hrun & _).
  by exists w'.
Defined.

Lemma applyThemeFilter_sublist_witness :
  [[Demo.A; Demo.B; Demo.C; Demo.D]] !! 0 = Some [Demo.A; Demo.B; Demo.C; Demo.D]
  ∧ ∃ r h' ys,
      applyThemeFilter 0 "y" [[Demo.A; Demo.B; Demo.C; Demo.D]] = Some (r, h')
      ∧ h' !! r = Some ys
      ∧ ys `sublist_of` [Demo.A; Demo.B; Demo.C; Demo.D].
Proof.
  assert ([[Demo.A; Demo.B; Demo.C; Demo.D]] !! 0
          = Some [Demo.A; Demo.B; Demo.C; Demo.D]) as Hxs by reflexivity.
  split; [exact Hxs|].
  destruct (applyThemeFilter_sublist _ 0 "y" _ Hxs)
    as (r & h' & ys & Hrun & Hys & _ & Hsub & _).
  exists r, h', ys. split_and!; assumption.
Defined.


Lemma sortNodesByTag_buckets_witness :
  "y" ≠ ""
  ∧ [[Demo.D; Demo.C; Demo.B; Demo.A]] !! 0 = Some [Demo.D; Demo.C; Demo.B; Demo.A]
  ∧ @sortNodesByTag CodeUnit.collation 0 "y" [[Demo.D; Demo.C; Demo.B; Demo.A]]
    = Some (1, [[Demo.D; Demo.C; Demo.B; Demo.A]]
               ++ [Js.sort (@compareByName CodeUnit.collation)
                     (filter (λ a, "y" ∈ themes a) [Demo.D; Demo.C; Demo.B; Demo.A])
                   ++ Js.sort (@compareByName CodeUnit.collation)
                        (filter (λ a, "y" ∉ themes a) [Demo.D; Demo.C; Demo.B; Demo.A])]).
Proof.
  assert ("y" ≠ "") as Hy by discriminate.
  assert ([[Demo.D; Demo.C; Demo.B; Demo.A]] !! 0
          = Some [Demo.D; Demo.C; Demo.B; Demo.A]) as Hxs by reflexivity.
  split; [exact Hy|]. split; [exact Hxs|].
  exact (@sortNodesByTag_buckets CodeUnit.collation _ 0 "y" _ Hy Hxs).
Defined.

Lemma rebuildForFilter_no_memory_witness :
  heap Demo.loaded !! fullNodes Demo.loaded = Some [Demo.A; Demo.B; Demo.C; Demo.D]
  ∧ ∃ w1 w2 w2',
      @rebuildForFilter CodeUnit.collation Demo.rect "x" Demo.loaded = Some w1
      ∧ @rebuildForFilter CodeUnit.collation Demo.rect "y" w1 = Some w2
      ∧ @rebuildForFilter CodeUnit.collation Demo.rect "y" Demo.loaded = Some w2'
      ∧ graphData_links w2 = graphData_links w2'.
Proof.
  assert (heap Demo.loaded !! fullNodes Demo.loaded
          = Some [Demo.A; Demo.B; Demo.C; Demo.D]) as Hfull by (vm_compute; reflexivity).
  split; [exact Hfull|].
  destruct (@rebuildForFilter_no_memory CodeUnit.collation Demo.rect Demo.rect "x" "y"
              Demo.loaded _ Hfull) as (w1 & w2 & w2' & H1 & H2 & H3 & _ & Hl & _).
  exists w1, w2, w2'. split_and!; assumption.
Defined.

Lemma events_keep_arrays_witness :
  ∃ w', @handle CodeUnit.collation (FilterClick Demo.rect "y") Demo.loaded = Some w'
        ∧ fullNodes w' = fullNodes Demo.loaded.
Proof.
  destruct (@handle CodeUnit.collation (FilterClick Demo.rect "y") Demo.loaded)
    as [w'|] eqn:Hstep.
  - exists w'. split; [reflexivity|].
    exact (proj1 (@events_keep_arrays CodeUnit.collation _ _ _ Hstep)).
  - vm_compute in Hstep. discriminate Hstep.
Defined.

Lemma reachable_safe_witness :
  @reachable CodeUnit.collation Demo.loaded
  ∧ ∃ s, simulation Demo.loaded = Some s
         ∧ sim_nodes s = graphData_nodes Demo.loaded
         ∧ sim_links s = graphData_links Demo.loaded.
Proof.
  assert (@reachable CodeUnit.collation Demo.loaded) as Hreach
    by (eapply reachable_init; apply loaded_is_init).
  split; [exact Hreach|]. exact (proj1 (@reachable_safe CodeUnit.collation _ Hreach)).
Defined.

Lemma reachable_nodes_in_full_order_witness :
  @reachable CodeUnit.collation Demo.loaded
  ∧ ∃ nodes full,
      heap Demo.loaded !! graphData_nodes Demo.loaded = Some nodes
      ∧ heap Demo.loaded !! fullNodes Demo.loaded = Some full
      ∧ nodes = selected (activeThemeFilter Demo.loaded) full.
Proof.
  assert (@reachable CodeUnit.collation Demo.loaded) as Hreach
    by (eapply reachable_init; apply loaded_is_init).
  split; [exact Hreach|].
  destruct (@reachable_nodes_in_full_order CodeUnit.collation _ Hreach)
    as (nodes & full & H1 & H2 & H3 & _).
  exists nodes, full. split_and!; assumption.
Defined.

Lemma reachable_links_of_nodes_witness :
  @reachable CodeUnit.collation Demo.loaded
  ∧ ∃ nodes, heap Demo.loaded !! graphData_nodes Demo.loaded = Some nodes.
Proof.
  assert (@reachable CodeUnit.collation Demo.loaded) as Hreach
    by (eapply reachable_init; apply loaded_is_init).
  split; [exact Hreach|].
  destruct (@reachable_links_of_nodes CodeUnit.collation _ Hreach) as (nodes & H1 & _).
  by exists nodes.
Defined.

Lemma filter_without_match_witness :
  heap Demo.loaded !! fullNodes Demo.loaded = Some [Demo.A; Demo.B; Demo.C; Demo.D]
  ∧ "q" ≠ ""
  ∧ (∀ a, a ∈ [Demo.A; Demo.B; Demo.C; Demo.D] → "q" ∉ themes a)
  ∧ ∃ w', @rebuildForFilter CodeUnit.collation Demo.rect "q" Demo.loaded = Some w'
          ∧ heap w' !! graphData_nodes w' = Some []
          ∧ graphData_links w' = [].
Proof.
  assert (heap Demo.loaded !! fullNodes Demo.loaded
          = Some [Demo.A; Demo.B; Demo.C; Demo.D]) as Hfull by (vm_compute; reflexivity).
  assert ("q" ≠ "") as Hq by discriminate.
  assert (∀ a, a ∈ [Demo.A; Demo.B; Demo.C; Demo.D] → "q" ∉ themes a) as Hnone.
  { apply Forall_forall. by_computation. }
  split_and!; try assumption.
  destruct (@filter_without_match CodeUnit.collation Demo.rect "q" Demo.loaded _
              Hfull Hq Hnone) as (w' & Hrun & Hn & Hl & _).
  exists w'. split_and!; assumption.
Defined.

(** The parallax factor is the double of the literal [0.12]. *)
Example parallaxFactor_double :
  Double.of_literal (parallaxFactor CONFIG) = 0.12%float.
Proof. reflexivity. Qed.

(** A scroll offset of 15 gives the translation that the source
    prints, [1.7999999999999998], which is not [1.8]. *)
Example onScroll_15 :
  drift 15%float = 1.7999999999999998%float
  ∧ page_container (onScroll 15%float DemoPage.page) = Some (Some 1.7999999999999998%float)
  ∧ PrimFloat.eqb 1.7999999999999998%float 1.8%float = false.
Proof. split_and!; vm_compute; reflexivity. Qed.

Lemma rebuildPage_drops_parallax_witness :
  ∃ p', @rebuildPage CodeUnit.collation Demo.rect "y" (onScroll 15%float DemoPage.page)
        = Some p'
        ∧ page_container (onScroll 15%float DemoPage.page)
          = Some (Some 1.7999999999999998%float)
        ∧ page_container p' = Some None
        ∧ page_container (onScroll 15%float p') = Some (Some 1.7999999999999998%float).
Proof.
  destruct (@rebuildPage CodeUnit.collation Demo.rect "y" (onScroll 15%float DemoPage.page))
    as [p'|] eqn:Hrun.
  - destruct (@rebuildPage_drops_parallax CodeUnit.collation _ _ _ _ _ Hrun)
      as (_ & Hnone & Hnext).
    exists p'. split; [reflexivity|]. split; [vm_compute; reflexivity|].
    split; [exact Hnone|]. rewrite (Hnext 15%float). vm_compute. reflexivity.
  - vm_compute in Hrun. discriminate Hrun.
Defined.

Lemma clickFilter_effect_witness :
  page_buttons DemoPage.page !! 1 = Some {| data_theme := Some "y"; btn_active := false |}
  ∧ heap (page_world DemoPage.page) !! fullNodes (page_world DemoPage.page)
    = Some [Demo.A; Demo.B; Demo.C; Demo.D]
  ∧ ∃ p', @clickFilter CodeUnit.collation Demo.rect 1 DemoPage.page = Some p'
          ∧ activeThemeFilter (page_world p') = "y".
Proof.
  assert (page_buttons DemoPage.page !! 1
          = Some {| data_theme := Some "y"; btn_active := false |}) as Hk by reflexivity.
  assert (heap (page_world DemoPage.page) !! fullNodes (page_world DemoPage.page)
          = Some [Demo.A; Demo.B; Demo.C; Demo.D]) as Hfull by (vm_compute; reflexivity).
  split; [exact Hk|]. split; [exact Hfull|].
  destruct (@clickFilter_effect CodeUnit.collation Demo.rect 1 DemoPage.page _ _ Hk Hfull)
    as (p' & Hrun & _ & Hact & _).
  exists p'. split; assumption.
Defined.

(** The page after a click on the button of theme [y]: the nodes [B] and
    [C], the second button active, no translation. *)
Example click_y :
  ∃ p', @clickFilter CodeUnit.collation Demo.rect 1 (onScroll 100%float DemoPage.page) = Some p'
        ∧ heap (page_world p') !! graphData_nodes (page_world p') = Some [Demo.B; Demo.C]
        ∧ btn_active <$> page_buttons p' = [false; true]
        ∧ page_container p' = Some None.
Proof. eexists. split_and!; vm_compute; reflexivity. Qed.

Lemma buildLinks_sublist_witness :
  [Demo.B; Demo.C] `sublist_of` [Demo.A; Demo.B; Demo.C; Demo.D]
  ∧ ∀ l, l ∈ buildLinks [Demo.B; Demo.C] → l ∈ buildLinks [Demo.A; Demo.B; Demo.C; Demo.D].
Proof.
  assert ([Demo.B; Demo.C] `sublist_of` [Demo.A; Demo.B; Demo.C; Demo.D]) as Hsub.
  { apply sublist_cons, sublist_skip, sublist_skip, sublist_cons, sublist_nil. }
  split; [exact Hsub|]. exact (proj1 (buildLinks_sublist _ _ Hsub)).
Defined.
